(** * Array operators: map, filter, reduce (src/index.ts)

    A shallow embedding of the lightning-talk script and of the four
    "common use case" helpers it defines, each in its imperative and its
    declarative form:

    - [transformData]           (index.ts 90-106)
    - [transformAndFilterData]  (index.ts 108-130)
    - [groupData]               (index.ts 132-166)
    - [count]                   (index.ts 168-202)

    The development has two layers.  The first passes arrays and objects by
    value (lists and finite maps) and is used for the functional
    properties.  The second, in [Module Heap], passes them by reference
    through an explicit store and is used for the frame property (what a
    call may write to).  The layers are connected by simulation lemmas. *)

From stdpp Require Import base option list gmap strings pretty fin_maps.
From Stdlib Require Import ZArith.

Local Open Scope string_scope.
Local Open Scope list_scope.
Local Open Scope Z_scope.

(** ** Completions

    A JavaScript call either returns a value or throws.  The only exception
    these programs can raise on well-typed input is a [TypeError]. *)

Inductive error := TypeError.

Inductive completion (A : Type) :=
  | Return (a : A)
  | Throw (e : error).
Arguments Return {A} a.
Arguments Throw {A} e.

#[global] Instance completion_ret : MRet completion := @Return.
#[global] Instance completion_bind : MBind completion :=
  λ A B f m, match m with Return a => f a | Throw e => Throw e end.

(** ** Primitive values and the [+] operator

    Numbers are modelled by [Z]: every number the programs compute is an
    integer far below 2^53 (a count is bounded by an array length, which is
    below 2^32), where IEEE doubles are exact.  Strings are Rocq strings;
    only equality, concatenation and a prefix test are used. *)

Inductive prim :=
  | PNum (z : Z)
  | PStr (s : string).

#[global] Instance prim_eq_dec : EqDecision prim.
Proof. solve_decision. Defined.

(** ToString on primitives (ECMA-262, ToString); integers print in
    decimal. *)
Definition ToString (p : prim) : string :=
  match p with
  | PNum z => pretty z
  | PStr s => s
  end.

(** [a + b] on primitives (ECMA-262, ApplyStringOrNumericBinaryOperator):
    if either operand is a string the result is the concatenation of both
    operands' ToString, otherwise the numeric sum. *)
Definition plus (a b : prim) : prim :=
  match a, b with
  | PNum x, PNum y => PNum (x + y)
  | _, _ => PStr (ToString a +:+ ToString b)
  end.

(** ** Objects created by an object literal

    [{}] and [{...o, [k]: v}] create ordinary objects whose prototype is
    [Object.prototype].  Such an object is its finite map of own
    properties; a property read that misses the own properties continues
    on the prototype (ECMA-262, OrdinaryGet).  [Object.prototype] carries
    [constructor], six methods, and the legacy accessor [__proto__] and
    four legacy methods, which ECMA-262 requires of web browsers and which
    Node has too. *)

Inductive builtin :=
  | BFunction (name : string)   (* a built-in function object *)
  | BObjectPrototype.           (* the object Object.prototype itself *)

Definition Object_prototype_methods : list string :=
  [ "hasOwnProperty"; "isPrototypeOf"; "propertyIsEnumerable";
    "toLocaleString"; "toString"; "valueOf";
    "__defineGetter__"; "__defineSetter__";
    "__lookupGetter__"; "__lookupSetter__" ].

(** What a read of property [k] finds on [Object.prototype]:
    [constructor] is the function [Object], each method is the function of
    its own name, and the getter of [__proto__], called on an object whose
    prototype is [Object.prototype], returns [Object.prototype]. *)
Definition Object_prototype (k : string) : option builtin :=
  if decide (k = "constructor") then Some (BFunction "Object")
  else if decide (k ∈ Object_prototype_methods) then Some (BFunction k)
  else if decide (k = "__proto__") then Some BObjectPrototype
  else None.

(** The result of [o[k]]. *)
Inductive got (V : Type) :=
  | Own (v : V)                (* an own property of [o] *)
  | Inherited (b : builtin)    (* found on Object.prototype *)
  | Undefined.                 (* found nowhere: [undefined] *)
Arguments Own {V} v.
Arguments Inherited {V} b.
Arguments Undefined {V}.

Definition Get {V} (o : gmap string V) (k : string) : got V :=
  match o !! k with
  | Some v => Own v
  | None =>
      match Object_prototype k with
      | Some b => Inherited b
      | None => Undefined
      end
  end.

(** ToPrimitive of the built-in objects (ECMA-262, OrdinaryToPrimitive):
    [valueOf] returns the object itself, so [toString] decides.  The
    source text of a built-in function has the form NativeFunction of
    ECMA-262, which leaves the white space to the implementation; the
    rendering below is V8's.  [Object.prototype.toString] gives
    "[object Object]". *)
Definition ToPrimitive (b : builtin) : prim :=
  match b with
  | BFunction name => PStr ("function " +:+ name +:+ "() { [native code] }")
  | BObjectPrototype => PStr "[object Object]"
  end.

(** [o[k] = v] for a primitive [v] (ECMA-262, OrdinarySet).  An own
    property is overwritten.  Otherwise the prototype is consulted: the
    methods and [constructor] are writable data properties, so a new own
    property is created, as it is for a key found nowhere; [__proto__] is
    an accessor whose setter returns without effect when the value is
    neither an object nor null (ECMA-262, set Object.prototype.__proto__). *)
Definition Set_ (o : gmap string prim) (k : string) (v : prim)
  : gmap string prim :=
  match o !! k with
  | Some _ => <[k := v]> o
  | None => if decide (k = "__proto__") then o else <[k := v]> o
  end.

(** ** Array iteration

    [for (const x of array) body], with the loop body as a state
    transformer on the object it updates, and
    [array.reduce(callback, initialValue)].  Both stop at the first
    throw. *)

Fixpoint for_of {A S} (array : list A) (body : A → S → completion S) (s : S)
  : completion S :=
  match array with
  | [] => mret s
  | x :: rest => s' ← body x s; for_of rest body s'
  end.

Fixpoint reduce {A B} (callback : B → A → completion B) (initialValue : B)
    (array : list A) : completion B :=
  match array with
  | [] => mret initialValue
  | currentValue :: rest =>
      acc ← callback initialValue currentValue; reduce callback acc rest
  end.

(** [array.reduce(callback)]: the first element seeds the accumulator and
    combining starts at the second; an empty array throws a TypeError. *)
Definition reduce_no_initialValue {A} (callback : A → A → completion A)
    (array : list A) : completion A :=
  match array with
  | [] => Throw TypeError
  | first :: rest => reduce callback first rest
  end.

(** [s.startsWith(prefix)] *)
Definition startsWith (s prefix : string) : bool := String.prefix prefix s.

(** ** The introductory examples (index.ts 22-84) *)

(** index.ts 35: [[1, 2, 3, 4].filter((element) => element > 2)] *)
Definition filter_example : list Z :=
  List.filter (λ element, bool_decide (element > 2)) [1; 2; 3; 4].

(** index.ts 48-50 *)
Definition reduce_example : completion prim :=
  reduce_no_initialValue
    (λ previousValue currentValue, mret (plus previousValue currentValue))
    [PNum 1; PNum 2; PNum 3; PNum 4].

(** index.ts 74-77 *)
Definition reduce_initialValue_example : completion prim :=
  reduce
    (λ previousValue currentValue, mret (plus previousValue currentValue))
    (PStr "")
    [PStr "1"; PStr "2"; PStr "3"; PStr "4"].

(** ** Records of the two aggregations *)

Module Discount.
Record t := mk { code : string; discount : string }.
End Discount.

Module Order.
Record t := mk { order : string; code : string }.
End Order.

(** ** The use cases, arrays and objects by value *)

Section UseCases.

(** [String.prototype.toUpperCase] belongs to the runtime, not to the
    script: it is a parameter. *)
Variable toUpperCase : string → string.

(** index.ts 93-101 *)
Definition transformData_imperative (array : list string)
  : completion (list string) :=
  let result := [] in
  result ← for_of array (λ element result,
              mret (result ++ [toUpperCase element])) result;
  mret result.

(** index.ts 103-105 *)
Definition transformData_declarative (array : list string)
  : completion (list string) :=
  mret (map (λ element, toUpperCase element) array).

(** index.ts 111-123 *)
Definition transformAndFilterData_imperative (array : list string)
  : completion (list string) :=
  let result := [] in
  result ← for_of array (λ element result,
              if negb (startsWith element "x") then
                mret result (* continue *)
              else
                mret (result ++ [toUpperCase element])) result;
  mret result.

(** index.ts 125-129 *)
Definition transformAndFilterData_declarative (array : list string)
  : completion (list string) :=
  mret (map (λ element, toUpperCase element)
          (List.filter (λ element, startsWith element "x") array)).

End UseCases.

(** [o[k]?.concat(code) ?? [code]], given what [o[k]] found.  An own
    property holds an array and [concat] returns a new array with [code]
    appended (a string is not spread).  An inherited value is not nullish,
    so [?.] does not short-circuit; it has no [concat], and calling
    [undefined] throws.  On [undefined] the chain short-circuits and [??]
    picks the one-element array. *)
Definition concat_or_singleton (found : got (list string)) (code : string)
  : completion (list string) :=
  match found with
  | Own codes => mret (codes ++ [code])
  | Inherited _ => Throw TypeError
  | Undefined => mret [code]
  end.

(** index.ts 143-153.  The assignment [result[discount] = ...] is reached
    only when [discount] is an own property or is found nowhere, where it
    overwrites or creates the own property. *)
Definition groupData_imperative (discounts : list Discount.t)
  : completion (gmap string (list string)) :=
  let result := ∅ in
  result ← for_of discounts (λ '(Discount.mk code discount) result,
              codes ← concat_or_singleton (Get result discount) code;
              mret (<[discount := codes]> result)) result;
  mret result.

(** index.ts 155-165.  [{...grouped, [discount]: v}] copies the own
    properties of [grouped] into a new object and then defines the own
    property [discount] on it (CreateDataProperty). *)
Definition groupData_declarative (discounts : list Discount.t)
  : completion (gmap string (list string)) :=
  reduce (λ grouped '(Discount.mk code discount),
            codes ← concat_or_singleton (Get grouped discount) code;
            mret (<[discount := codes]> grouped))
         ∅ discounts.

(** [(o[k] ?? 0) + 1], given what [o[k]] found. *)
Definition or_zero_plus_one (found : got prim) : prim :=
  match found with
  | Own n => plus n (PNum 1)
  | Inherited b => plus (ToPrimitive b) (PNum 1)
  | Undefined => plus (PNum 0) (PNum 1)
  end.

(** index.ts 179-189 *)
Definition count_imperative (orders : list Order.t)
  : completion (gmap string prim) :=
  let result := ∅ in
  result ← for_of orders (λ '(Order.mk _ code) result,
              mret (Set_ result code (or_zero_plus_one (Get result code))))
            result;
  mret result.

(** index.ts 191-201 *)
Definition count_declarative (orders : list Order.t)
  : completion (gmap string prim) :=
  reduce (λ counts '(Order.mk _ code),
            mret (<[code := or_zero_plus_one (Get counts code)]> counts))
         ∅ orders.

(** The loop body of [count.imperative] and the reducer of
    [count.declarative] as functions of the record: the two ways of
    recording one more occurrence of its code. *)
Definition count_assign (counts : gmap string prim) (o : Order.t)
  : gmap string prim :=
  Set_ counts (Order.code o) (or_zero_plus_one (Get counts (Order.code o))).

Definition count_define (counts : gmap string prim) (o : Order.t)
  : gmap string prim :=
  <[Order.code o := or_zero_plus_one (Get counts (Order.code o))]> counts.

(** The reducer of [groupData.declarative], which is also the loop body of
    [groupData.imperative], as a function of the record. *)
Definition group_define (grouped : gmap string (list string)) (r : Discount.t)
  : completion (gmap string (list string)) :=
  codes ← concat_or_singleton (Get grouped (Discount.discount r))
            (Discount.code r);
  mret (<[Discount.discount r := codes]> grouped).

(** ** Reading the result of the count aggregation

    The sum of all counts of a mapping, defined when every entry is a
    number. *)

Definition as_number (p : prim) : option Z :=
  match p with
  | PNum z => Some z
  | PStr _ => None
  end.

Definition sum_of_counts (counts : gmap string prim) : option Z :=
  map_fold (λ _ v acc, a ← acc; n ← as_number v; Some (a + n)) (Some 0) counts.

(** ** What the spec says a selection is

    [selection p S kept]: [kept] holds exactly the elements of [S] that
    satisfy [p], each as often as it occurs and in the order of [S]. *)

Inductive selection {A} (p : A → bool) : list A → list A → Prop :=
  | selection_nil : selection p [] []
  | selection_keep x S kept :
      p x = true → selection p S kept → selection p (x :: S) (x :: kept)
  | selection_skip x S kept :
      p x = false → selection p S kept → selection p (x :: S) kept.

(** The codes of the records of [discounts] whose discount is [d], in input
    order: what the spec says the group of [d] is. *)
Definition codes_with_discount (d : string) (discounts : list Discount.t)
  : list string :=
  Discount.code <$>
    List.filter (λ r, bool_decide (Discount.discount r = d)) discounts.

(** A key that collides with a property of [Object.prototype]. *)
Definition inherited_key (k : string) : Prop := is_Some (Object_prototype k).

#[global] Instance inherited_key_dec k : Decision (inherited_key k).
Proof. unfold inherited_key. apply _. Defined.

(** ** The use cases, arrays and objects by reference

    Arrays and objects live in a store and are passed by reference, so
    that what a call writes, and to which object, is explicit.  A
    computation maps a store to a completion and a new store; it has no
    result ([None]) when the store does not hold data of the TypeScript
    types the script declares. *)

Module Heap.

Abbreviation loc := positive.

Inductive val :=
  | VPrim (p : prim)
  | VRef (l : loc).

Definition VStr (s : string) : val := VPrim (PStr s).

Inductive obj :=
  | Array (elements : list val)
  | Object (properties : gmap string val).

Abbreviation heap := (gmap loc obj).

Definition M (A : Type) : Type := heap → option (completion A * heap).

#[global] Instance M_ret : MRet M := λ A a h, Some (Return a, h).
#[global] Instance M_bind : MBind M := λ A B f m h,
  match m h with
  | Some (Return a, h') => f a h'
  | Some (Throw e, h') => Some (Throw e, h')
  | None => None
  end.

Definition throw {A} (e : error) : M A := λ h, Some (Throw e, h).
Definition ill_typed {A} : M A := λ _, None.

(** Object and array creation: a location not in use. *)
Definition alloc (o : obj) : M loc := λ h,
  let l := fresh (dom h) in Some (Return l, <[l := o]> h).

(** Overwrite the object at [l]. *)
Definition store (l : loc) (o : obj) : M unit := λ h,
  Some (Return (), <[l := o]> h).

Definition read_array (a : loc) : M (list val) := λ h,
  match h !! a with
  | Some (Array elements) => Some (Return elements, h)
  | _ => None
  end.

Definition read_object (o : loc) : M (gmap string val) := λ h,
  match h !! o with
  | Some (Object properties) => Some (Return properties, h)
  | _ => None
  end.

Definition array_length (a : loc) : M nat :=
  elements ← read_array a; mret (length elements).

(** [a[i]] for [i] below the length *)
Definition array_get (a : loc) (i : nat) : M val :=
  elements ← read_array a;
  match elements !! i with
  | Some v => mret v
  | None => ill_typed
  end.

(** [a.push(v)] *)
Definition push (a : loc) (v : val) : M unit :=
  elements ← read_array a; store a (Array (elements ++ [v])).

(** [a.concat(v)] for a [v] that is not an array: a new array *)
Definition concat (a : loc) (v : val) : M loc :=
  elements ← read_array a; alloc (Array (elements ++ [v])).

(** [o[k]] *)
Definition get_property (o : loc) (k : string) : M (got val) :=
  properties ← read_object o; mret (Get properties k).

(** [o[k] = v] (OrdinarySet).  When [k] is [__proto__] and is not an own
    property, the setter of [Object.prototype] runs: it ignores a
    primitive, and would replace the prototype of [o] by an object, which
    these objects do not model. *)
Definition set_property (o : loc) (k : string) (v : val) : M unit :=
  properties ← read_object o;
  let write := store o (Object (<[k := v]> properties)) in
  match properties !! k with
  | Some _ => write
  | None =>
      if decide (k = "__proto__") then
        match v with
        | VPrim _ => mret ()
        | VRef _ => ill_typed
        end
      else write
  end.

(** [{...o, [k]: v}]: a new object with the own properties of [o] and
    then the own property [k] (CreateDataProperty). *)
Definition spread_with (o : loc) (k : string) (v : val) : M loc :=
  properties ← read_object o; alloc (Object (<[k := v]> properties)).

Definition as_string (v : val) : M string :=
  match v with
  | VPrim (PStr s) => mret s
  | _ => ill_typed
  end.

Definition as_prim (v : val) : M prim :=
  match v with
  | VPrim p => mret p
  | VRef _ => ill_typed
  end.

(** A property that the declared record type promises, of type string. *)
Definition field (v : val) (k : string) : M string :=
  match v with
  | VRef r =>
      properties ← read_object r;
      match properties !! k with
      | Some x => as_string x
      | None => ill_typed
      end
  | VPrim _ => ill_typed
  end.

(** Visit [a[i]], [a[i+1]], ... for [n] elements, threading [s]. *)
Fixpoint iterate {S} (n i : nat) (a : loc) (body : val → S → M S) (s : S)
  : M S :=
  match n with
  | O => mret s
  | Datatypes.S n' =>
      x ← array_get a i; s' ← body x s; iterate n' (Datatypes.S i) a body s'
  end.

(** The built-in iterations [forEach], [filter], [map] and [reduce] read
    the length once and each element when its turn comes. *)
Definition forEach (a : loc) (body : val → M unit) : M unit :=
  n ← array_length a; iterate n 0 a (λ x _, body x) ().

Definition reduce {B} (a : loc) (callback : B → val → M B) (initialValue : B)
  : M B :=
  n ← array_length a; iterate n 0 a (λ x acc, callback acc x) initialValue.

(** [a.map(f)] and [a.filter(p)]: a new array, filled in index order. *)
Definition array_map (a : loc) (f : val → M val) : M loc :=
  A ← alloc (Array []);
  forEach a (λ x, y ← f x; push A y);;
  mret A.

Definition array_filter (a : loc) (p : val → M bool) : M loc :=
  A ← alloc (Array []);
  forEach a (λ x, keep ← p x; if keep : bool then push A x else mret ());;
  mret A.

(** [for (const x of a) body].  The array iterator reads the length
    before every step; as long as the body leaves the length of [a]
    alone, which holds of every loop below, that is [forEach]. *)
Definition for_of (a : loc) (body : val → M unit) : M unit := forEach a body.

Section UseCases.

Variable toUpperCase : string → string.

(** index.ts 93-101 *)
Definition transformData_imperative (array : loc) : M loc :=
  result ← alloc (Array []);
  for_of array (λ element,
    element ← as_string element;
    push result (VStr (toUpperCase element)));;
  mret result.

(** index.ts 103-105 *)
Definition transformData_declarative (array : loc) : M loc :=
  array_map array (λ element,
    element ← as_string element; mret (VStr (toUpperCase element))).

(** index.ts 111-123 *)
Definition transformAndFilterData_imperative (array : loc) : M loc :=
  result ← alloc (Array []);
  for_of array (λ element,
    element ← as_string element;
    if negb (startsWith element "x") then
      mret () (* continue *)
    else
      push result (VStr (toUpperCase element)));;
  mret result.

(** index.ts 125-129 *)
Definition transformAndFilterData_declarative (array : loc) : M loc :=
  filtered ← array_filter array (λ element,
    element ← as_string element; mret (startsWith element "x"));
  array_map filtered (λ element,
    element ← as_string element; mret (VStr (toUpperCase element))).

End UseCases.

(** [o[k]?.concat(code) ?? [code]], given what [o[k]] found. *)
Definition concat_or_singleton (found : got val) (code : string) : M loc :=
  match found with
  | Own (VRef codes) => concat codes (VStr code)
  | Own (VPrim _) => ill_typed
  | Inherited _ => throw TypeError
  | Undefined => alloc (Array [VStr code])
  end.

(** index.ts 143-153 *)
Definition groupData_imperative (discounts : loc) : M loc :=
  result ← alloc (Object ∅);
  for_of discounts (λ r,
    code ← field r "code";
    discount ← field r "discount";
    codes ← (found ← get_property result discount; concat_or_singleton found code);
    set_property result discount (VRef codes));;
  mret result.

(** index.ts 155-165 *)
Definition groupData_declarative (discounts : loc) : M loc :=
  initial ← alloc (Object ∅);
  reduce discounts (λ grouped r,
    discount ← field r "discount";
    code ← field r "code";
    codes ← (found ← get_property grouped discount; concat_or_singleton found code);
    spread_with grouped discount (VRef codes)) initial.

(** [(o[k] ?? 0) + 1], given what [o[k]] found. *)
Definition or_zero_plus_one (found : got val) : M prim :=
  match found with
  | Own v => n ← as_prim v; mret (plus n (PNum 1))
  | Inherited b => mret (plus (ToPrimitive b) (PNum 1))
  | Undefined => mret (plus (PNum 0) (PNum 1))
  end.

(** index.ts 179-189 *)
Definition count_imperative (orders : loc) : M loc :=
  result ← alloc (Object ∅);
  for_of orders (λ r,
    code ← field r "code";
    n ← (found ← get_property result code; or_zero_plus_one found);
    set_property result code (VPrim n));;
  mret result.

(** index.ts 191-201 *)
Definition count_declarative (orders : loc) : M loc :=
  initial ← alloc (Object ∅);
  reduce orders (λ counts r,
    code ← field r "code";
    n ← (found ← get_property counts code; or_zero_plus_one found);
    spread_with counts code (VPrim n)) initial.

(** *** Stores that hold the declared input types *)

Definition is_string_array (h : heap) (a : loc) (strings : list string)
  : Prop :=
  h !! a = Some (Array (VStr <$> strings)).

Definition is_record (h : heap) (v : val) (fields : list (string * string))
  : Prop :=
  ∃ r properties,
    v = VRef r ∧ h !! r = Some (Object properties) ∧
    Forall (λ '(k, s), properties !! k = Some (VStr s)) fields.

Definition is_discount_array (h : heap) (a : loc)
    (discounts : list Discount.t) : Prop :=
  ∃ elements,
    h !! a = Some (Array elements) ∧
    Forall2 (λ v r, is_record h v [("code", Discount.code r);
                                   ("discount", Discount.discount r)])
            elements discounts.

Definition is_order_array (h : heap) (a : loc) (orders : list Order.t)
  : Prop :=
  ∃ elements,
    h !! a = Some (Array elements) ∧
    Forall2 (λ v r, is_record h v [("order", Order.order r);
                                   ("code", Order.code r)])
            elements orders.

(** *** Stores that hold a result *)

(** The properties [properties] hold the grouping [grouped], each group
    an array outside [old]. *)
Definition holds_groups (old : gset loc) (h : heap)
    (properties : gmap string val) (grouped : gmap string (list string))
  : Prop :=
  ∀ d, match grouped !! d with
       | Some codes =>
           ∃ l, properties !! d = Some (VRef l) ∧ (l ∉ old) ∧
                is_string_array h l codes
       | None => properties !! d = None
       end.

(** [r] is an object outside [old] holding the grouping [grouped]. *)
Definition is_grouping (old : gset loc) (h : heap) (r : loc)
    (grouped : gmap string (list string)) : Prop :=
  (r ∉ old) ∧
  ∃ properties,
    h !! r = Some (Object properties) ∧ holds_groups old h properties grouped.

Definition is_counting (old : gset loc) (h : heap) (r : loc)
    (counts : gmap string prim) : Prop :=
  (r ∉ old) ∧ h !! r = Some (Object (VPrim <$> counts)).

(** Every object of [h] is in [h'], unchanged. *)
Definition unchanged (h h' : heap) : Prop :=
  ∀ l, l ∈ dom h → h' !! l = h !! l.

(** [m], run in [h], has a result; a returned value and the new store
    satisfy [Q], a thrown error and the new store satisfy [T]. *)
Definition wp {A} (m : M A) (h : heap)
    (Q : A → heap → Prop) (T : error → heap → Prop) : Prop :=
  match m h with
  | Some (Return a, h') => Q a h'
  | Some (Throw e, h') => T e h'
  | None => False
  end.

End Heap.

(** ** Concrete data of the script's comments and of the spec's scenarios *)

(** An upper-casing of the letters a-z that leaves every other character
    alone: [String.prototype.toUpperCase] restricted to ASCII strings. *)
Definition toUpperCase_ascii_char (c : Ascii.ascii) : Ascii.ascii :=
  let n := Ascii.nat_of_ascii c in
  if bool_decide (97 ≤ n ≤ 122)%nat then Ascii.ascii_of_nat (n - 32) else c.

Fixpoint toUpperCase_ascii (s : string) : string :=
  match s with
  | EmptyString => EmptyString
  | String c rest => String (toUpperCase_ascii_char c) (toUpperCase_ascii rest)
  end.

(** index.ts 134-138, the input of the grouping example *)
Definition grouping_example_input : list Discount.t :=
  [ Discount.mk "A" "1"; Discount.mk "B" "2"; Discount.mk "C" "1";
    Discount.mk "E" "2"; Discount.mk "F" "1" ].

(** The output the spec's scenario 4 gives for it. *)
Definition scenario4_output : gmap string (list string) :=
  {[ "1" := ["A"; "C"; "E"; "F"]; "2" := ["B"; "E"] ]}.

(** index.ts 170-174, the input of the counting example *)
Definition counting_example_input : list Order.t :=
  [ Order.mk "ASDF-123456" "A"; Order.mk "ASDF-123457" "B";
    Order.mk "ASDF-123458" "B"; Order.mk "ASDF-123459" "A";
    Order.mk "ASDF-123451" "B" ].

(** The same codes under other order numbers. *)
Definition counting_example_reordered : list Order.t :=
  [ Order.mk "QWER-000005" "A"; Order.mk "QWER-000004" "B";
    Order.mk "" "B"; Order.mk "ASDF-123459" "A";
    Order.mk "constructor" "B" ].

(** A store with one input for each use case. *)
Definition example_store : gmap positive Heap.obj :=
  {[ 1%positive := Heap.Array [Heap.VStr "x"; Heap.VStr "y"; Heap.VStr "xz"];
     2%positive := Heap.Array [Heap.VRef 3; Heap.VRef 4];
     3%positive := Heap.Object {[ "code" := Heap.VStr "A";
                                  "discount" := Heap.VStr "1" ]};
     4%positive := Heap.Object {[ "code" := Heap.VStr "C";
                                  "discount" := Heap.VStr "1" ]};
     5%positive := Heap.Array [Heap.VRef 6];
     6%positive := Heap.Object {[ "order" := Heap.VStr "ASDF-123456";
                                  "code" := Heap.VStr "A" ]} ]}.

(** A store that holds an array of strings and nothing else. *)
Definition strings_only_store : gmap positive Heap.obj :=
  {[ 1%positive := Heap.Array [Heap.VStr "x"; Heap.VStr "y"] ]}.

(** ** What a call may do to the store *)

(** [m], run in [h], returns an object created by the call and leaves
    every object of [h] as it was. *)
Definition returns_fresh (m : Heap.M positive) (h : gmap positive Heap.obj)
  : Prop :=
  ∃ r h', m h = Some (Return r, h') ∧ (r ∉ dom h) ∧ Heap.unchanged h h'.

(** The same, or [m] throws and leaves every object of [h] as it was;
    [may_throw] says when it may throw. *)
Definition returns_fresh_or_throws (may_throw : Prop) (m : Heap.M positive)
    (h : gmap positive Heap.obj) : Prop :=
  ∃ c h', m h = Some (c, h') ∧ Heap.unchanged h h' ∧
          match c with
          | Return r => r ∉ dom h
          | Throw _ => may_throw
          end.

(** The reducer throws [e] somewhere along [discounts]. *)
Definition group_define_throws (discounts : list Discount.t) (e : error)
  : Prop :=
  reduce group_define ∅ discounts = Throw e.

(** The state of either grouping after [j] records: the store extends the
    initial one [h0], and [acc] holds what the reducer gives on the first
    [j] records. *)
Definition grouped_so_far (h0 : gmap positive Heap.obj)
    (discounts : list Discount.t) (j : nat) (acc : positive)
    (h : gmap positive Heap.obj) : Prop :=
  Heap.unchanged h0 h ∧
  ∃ grouped,
    reduce group_define ∅ (take j discounts) = Return grouped ∧
    Heap.is_grouping (dom h0) h acc grouped.

(** ** Measures of the inputs and of the results *)

(** The number of records of [orders] whose code is [k]. *)
Definition occurrences (k : string) (orders : list Order.t) : nat :=
  length (List.filter (λ o, bool_decide (Order.code o = k)) orders).

(** The number of codes a grouping holds, over all its groups. *)
Definition total_codes (grouped : gmap string (list string)) : nat :=
  map_fold (λ _ codes acc, (length codes + acc)%nat) O grouped.

(** The sum of a list of integers, and the concatenation of a list of
    strings. *)
Definition sum_of (numbers : list Z) : Z := foldr Z.add 0 numbers.

Definition concatenation (strings : list string) : string :=
  foldr String.append "" strings.

(** ** Agreement of the two layers *)

(** [m], run in [h], returns a new array that holds the strings that the
    by-value computation [c] returns, and the array [a] still holds
    [strings]. *)
Definition computes_array (m : Heap.M positive) (h : gmap positive Heap.obj)
    (a : positive) (strings : list string) (c : completion (list string))
  : Prop :=
  ∃ r h' out,
    m h = Some (Return r, h') ∧ c = Return out ∧ (r ∉ dom h) ∧
    Heap.is_string_array h' r out ∧ Heap.is_string_array h' a strings.

(** [m], run in [h], returns an object that holds the grouping that the
    by-value computation [c] returns, every group in an array created by
    the call, or throws as [c] does. *)
Definition computes_grouping (m : Heap.M positive)
    (h : gmap positive Heap.obj)
    (c : completion (gmap string (list string))) : Prop :=
  ∃ o h',
    m h = Some (o, h') ∧ Heap.unchanged h h' ∧
    match o, c with
    | Return r, Return grouped => Heap.is_grouping (dom h) h' r grouped
    | Throw e, Throw e' => e = e'
    | _, _ => False
    end.

(** [m], run in [h], returns a new object that holds the counts that the
    by-value computation [c] returns. *)
Definition computes_counting (m : Heap.M positive)
    (h : gmap positive Heap.obj) (c : completion (gmap string prim)) : Prop :=
  ∃ r h' counts,
    m h = Some (Return r, h') ∧ c = Return counts ∧ Heap.unchanged h h' ∧
    Heap.is_counting (dom h) h' r counts.

(** * Properties *)

(** ** Iteration *)

Lemma for_of_reduce {A S} (body : A → S → completion S) array s :
  for_of array body s = reduce (λ s x, body x s) s array.
Proof.
  revert s. induction array as [|x rest IH]; intros s; simpl; [done|].
  destruct (body x s); simpl; auto.
Qed.

Lemma reduce_ext {A B} (f g : B → A → completion B) array b :
  Forall (λ x, ∀ acc, f acc x = g acc x) array →
  reduce f b array = reduce g b array.
Proof.
  intros H. revert b. induction H as [|x rest Hx _ IH]; intros b; simpl; [done|].
  rewrite Hx. destruct (g b x); simpl; auto.
Qed.

Lemma reduce_pure {A B} (f : B → A → B) array b :
  reduce (λ acc x, mret (f acc x)) b array = Return (foldl f b array).
Proof. revert b. induction array as [|x rest IH]; intros b; simpl; auto. Qed.

Lemma reduce_app {A B} (f : B → A → completion B) l1 l2 b :
  reduce f b (l1 ++ l2) = (acc ← reduce f b l1; reduce f acc l2).
Proof.
  revert b. induction l1 as [|x rest IH]; intros b; simpl; [done|].
  destruct (f b x); simpl; auto.
Qed.

(** ** Uppercase-transform *)

Section UseCaseProperties.

Variable toUpperCase : string → string.

Lemma push_loop (f : string → string) array result :
  for_of array (λ element result, mret (result ++ [f element])) result
  = Return (result ++ map f array).
Proof.
  revert result. induction array as [|x rest IH]; intros result; simpl.
  - by rewrite app_nil_r.
  - rewrite IH. by rewrite <- app_assoc.
Qed.

Lemma transformData_imperative_eq array :
  transformData_imperative toUpperCase array
  = Return (map toUpperCase array).
Proof. unfold transformData_imperative. by rewrite push_loop. Qed.

Lemma transformData_equiv array :
  transformData_imperative toUpperCase array
  = transformData_declarative toUpperCase array.
Proof. by rewrite transformData_imperative_eq. Qed.

(** ** Filter-then-transform *)

Lemma filter_push_loop array result :
  for_of array (λ element result,
      if negb (startsWith element "x") then mret result
      else mret (result ++ [toUpperCase element])) result
  = Return (result ++ map toUpperCase
              (List.filter (λ element, startsWith element "x") array)).
Proof.
  revert result. induction array as [|x rest IH]; intros result; simpl.
  - by rewrite app_nil_r.
  - destruct (startsWith x "x"); simpl; rewrite IH; [|done].
    by rewrite <- app_assoc.
Qed.

Lemma transformAndFilterData_equiv array :
  transformAndFilterData_imperative toUpperCase array
  = transformAndFilterData_declarative toUpperCase array.
Proof.
  unfold transformAndFilterData_imperative. by rewrite filter_push_loop.
Qed.

End UseCaseProperties.

Lemma selection_filter {A} (p : A → bool) (S : list A) :
  selection p S (List.filter p S).
Proof.
  induction S as [|x S IH]; simpl; [constructor|].
  destruct (p x) eqn:Hp; by constructor.
Qed.

Lemma selection_unique {A} (p : A → bool) (S kept : list A) :
  selection p S kept → kept = List.filter p S.
Proof.
  induction 1 as [|x S kept Hp _ IH|x S kept Hp _ IH]; simpl;
    rewrite ?Hp; congruence.
Qed.

Lemma selection_sublist {A} (p : A → bool) (S kept : list A) :
  selection p S kept → sublist kept S.
Proof. induction 1; by constructor. Qed.

Lemma selection_elem_of {A} (p : A → bool) (S kept : list A) x :
  selection p S kept → x ∈ kept ↔ x ∈ S ∧ p x = true.
Proof.
  induction 1 as [|y S kept Hp _ IH|y S kept Hp _ IH].
  - split; [by intros ?%elem_of_nil | by intros [?%elem_of_nil _]].
  - rewrite !elem_of_cons, IH. intuition (subst; auto).
  - rewrite elem_of_cons, IH. intuition (subst; auto; congruence).
Qed.

(** ** Property reads *)

Lemma Get_own {V} (o : gmap string V) k v : o !! k = Some v → Get o k = Own v.
Proof. unfold Get. by intros ->. Qed.

Lemma Get_inherited {V} (o : gmap string V) k :
  o !! k = None → inherited_key k → ∃ b, Get o k = Inherited b.
Proof. unfold Get. intros -> [b ->]. by exists b. Qed.

Lemma Get_undefined {V} (o : gmap string V) k :
  o !! k = None → ¬ inherited_key k → Get o k = Undefined.
Proof.
  unfold Get, inherited_key. intros -> Hk.
  destruct (Object_prototype k); [|done]. by destruct Hk.
Qed.

Lemma proto_inherited : inherited_key "__proto__".
Proof. by eexists. Qed.

Lemma Set_insert o k v : ¬ inherited_key k → Set_ o k v = <[k := v]> o.
Proof.
  intros Hk. unfold Set_. destruct (o !! k); [done|].
  case_decide; [|done]. subst. destruct Hk. apply proto_inherited.
Qed.

(** ** Group-by-key aggregation *)

Lemma bind_ret {A} (m : completion A) : (x ← m; mret x) = m.
Proof. by destruct m. Qed.

Lemma groupData_equiv discounts :
  groupData_imperative discounts = groupData_declarative discounts.
Proof.
  unfold groupData_imperative, groupData_declarative.
  rewrite bind_ret, for_of_reduce.
  apply reduce_ext, Forall_forall. by intros [code discount] _ grouped.
Qed.

Lemma group_step grouped code discount :
  ¬ inherited_key discount →
  (codes ← concat_or_singleton (Get grouped discount) code;
   mret (<[discount := codes]> grouped))
  = Return (<[discount := default [] (grouped !! discount) ++ [code]]> grouped).
Proof.
  intros Hk. destruct (grouped !! discount) as [old|] eqn:E.
  - by rewrite (Get_own _ _ _ E).
  - by rewrite (Get_undefined _ _ E Hk).
Qed.

Lemma codes_with_discount_cons d r discounts :
  codes_with_discount d (r :: discounts)
  = if decide (Discount.discount r = d)
    then Discount.code r :: codes_with_discount d discounts
    else codes_with_discount d discounts.
Proof.
  unfold codes_with_discount. simpl.
  case_bool_decide; case_decide; done.
Qed.

(** Folding the reducer over records free of inherited keys appends, for
    each discount, its codes in input order to what was there. *)
Lemma group_reduce discounts :
  Forall (λ r, ¬ inherited_key (Discount.discount r)) discounts →
  ∀ grouped, ∃ grouped',
    reduce (λ grouped '(Discount.mk code discount),
              codes ← concat_or_singleton (Get grouped discount) code;
              mret (<[discount := codes]> grouped)) grouped discounts
    = Return grouped' ∧
    ∀ d, grouped' !! d =
         match codes_with_discount d discounts with
         | [] => grouped !! d
         | codes => Some (default [] (grouped !! d) ++ codes)
         end.
Proof.
  induction 1 as [|[code discount] rest Hk _ IH]; intros grouped.
  - exists grouped. by split.
  - simpl in Hk. cbn [reduce]. rewrite (group_step _ _ _ Hk). simpl.
    destruct (IH (<[discount := default [] (grouped !! discount) ++ [code]]>
                    grouped)) as (grouped' & -> & Hlook).
    exists grouped'. split; [done|]. intros d.
    rewrite Hlook, codes_with_discount_cons. simpl.
    case_decide as Hd.
    + subst d. rewrite lookup_insert_eq. simpl.
      destruct (codes_with_discount discount rest); [done|].
      by rewrite <- app_assoc.
    + by rewrite lookup_insert_ne.
Qed.

(** On input free of inherited keys the aggregation returns the mapping
    whose keys are the discounts that occur and whose value at [d] is the
    list of the codes with discount [d], in input order. *)
Lemma groupData_declarative_groups discounts :
  Forall (λ r, ¬ inherited_key (Discount.discount r)) discounts →
  ∃ grouped,
    groupData_declarative discounts = Return grouped ∧
    ∀ d, grouped !! d =
         match codes_with_discount d discounts with
         | [] => None
         | codes => Some codes
         end.
Proof.
  intros H. destruct (group_reduce _ H ∅) as (grouped & E & Hlook).
  exists grouped. split; [done|]. intros d. rewrite Hlook, lookup_empty.
  by destruct (codes_with_discount d discounts).
Qed.

(** The first record whose discount names a property of [Object.prototype]
    makes the reducer call [undefined]. *)
Lemma group_reduce_throws discounts :
  Exists (λ r, inherited_key (Discount.discount r)) discounts →
  ∀ grouped, (∀ k, inherited_key k → grouped !! k = None) →
    reduce (λ grouped '(Discount.mk code discount),
              codes ← concat_or_singleton (Get grouped discount) code;
              mret (<[discount := codes]> grouped)) grouped discounts
    = Throw TypeError.
Proof.
  induction discounts as [|[code discount] rest IH]; intros Hex grouped Hclean.
  { by apply Exists_nil in Hex. }
  cbn [reduce].
  destruct (decide (inherited_key discount)) as [Hk|Hk].
  - destruct (Get_inherited grouped discount (Hclean _ Hk) Hk) as [b ->]. done.
  - rewrite (group_step _ _ _ Hk). simpl. apply IH.
    + apply Exists_cons in Hex as [?|?]; done.
    + intros k Hik. rewrite lookup_insert_ne; [by apply Hclean|].
      by intros ->.
Qed.

Lemma groupData_declarative_throws discounts :
  Exists (λ r, inherited_key (Discount.discount r)) discounts →
  groupData_declarative discounts = Throw TypeError.
Proof. intros H. by apply group_reduce_throws. Qed.

(** ** Count-by-key aggregation *)

Lemma count_step counts code :
  ¬ inherited_key code →
  or_zero_plus_one (Get counts code)
  = match counts !! code with
    | Some n => plus n (PNum 1)
    | None => PNum 1
    end.
Proof.
  intros Hk. destruct (counts !! code) as [n|] eqn:E.
  - by rewrite (Get_own _ _ _ E).
  - by rewrite (Get_undefined _ _ E Hk).
Qed.

Lemma sum_comm (z1 z2 : prim) (acc : option Z) :
  (a ← (a ← acc; n ← as_number z2; Some (a + n)); n ← as_number z1; Some (a + n))
  = (a ← (a ← acc; n ← as_number z1; Some (a + n)); n ← as_number z2; Some (a + n)).
Proof.
  destruct acc as [a|], z1 as [n1|s1], z2 as [n2|s2]; simpl; try done.
  f_equal. lia.
Qed.

Lemma sum_of_counts_insert counts k v :
  counts !! k = None →
  sum_of_counts (<[k := v]> counts)
  = (a ← sum_of_counts counts; n ← as_number v; Some (a + n)).
Proof.
  intros Hk. unfold sum_of_counts.
  apply (map_fold_insert_L
           (λ (_ : string) v acc, a ← acc; n ← as_number v; Some (a + n)));
    [|done].
  intros j1 j2 z1 z2 acc _ _ _. apply sum_comm.
Qed.

Lemma sum_of_counts_lookup counts k v total :
  sum_of_counts counts = Some total → counts !! k = Some v →
  ∃ n, v = PNum n ∧ sum_of_counts (delete k counts) = Some (total - n).
Proof.
  intros Hsum Hk.
  rewrite <- (insert_delete_id counts k v Hk) in Hsum.
  rewrite sum_of_counts_insert in Hsum by apply lookup_delete_eq.
  destruct (sum_of_counts (delete k counts)) as [a|]; [|done].
  destruct v as [n|s]; [|done]. simpl in Hsum. exists n. split; [done|].
  f_equal. injection Hsum. lia.
Qed.

(** One more occurrence of a key that is not inherited adds one to the sum
    of the counts. *)
Lemma sum_of_counts_step counts code total :
  ¬ inherited_key code →
  sum_of_counts counts = Some total →
  sum_of_counts (<[code := or_zero_plus_one (Get counts code)]> counts)
  = Some (total + 1).
Proof.
  intros Hk Hsum. rewrite (count_step _ _ Hk).
  destruct (counts !! code) as [v|] eqn:E.
  - destruct (sum_of_counts_lookup _ _ _ _ Hsum E) as (n & -> & Hdel).
    rewrite <- insert_delete_eq, sum_of_counts_insert by apply lookup_delete_eq.
    rewrite Hdel. simpl. f_equal. lia.
  - rewrite sum_of_counts_insert by done. by rewrite Hsum.
Qed.

Lemma count_reduce_sum orders :
  Forall (λ o, ¬ inherited_key (Order.code o)) orders →
  ∀ counts total, sum_of_counts counts = Some total →
    ∃ counts',
      reduce (λ counts '(Order.mk _ code),
                mret (<[code := or_zero_plus_one (Get counts code)]> counts))
             counts orders
      = Return counts' ∧
      sum_of_counts counts' = Some (total + Z.of_nat (length orders)).
Proof.
  induction 1 as [|[order code] rest Hk _ IH]; intros counts total Hsum.
  - exists counts. split; [done|]. rewrite Hsum. f_equal. simpl. lia.
  - cbn [reduce]. simpl in Hk.
    destruct (IH _ _ (sum_of_counts_step _ _ _ Hk Hsum)) as (counts' & E & Hs).
    exists counts'. split; [exact E|]. rewrite Hs. f_equal.
    rewrite length_cons. lia.
Qed.

(** On input free of inherited keys the counts add up to the length of the
    input. *)
Lemma count_declarative_sum orders :
  Forall (λ o, ¬ inherited_key (Order.code o)) orders →
  ∃ counts,
    count_declarative orders = Return counts ∧
    sum_of_counts counts = Some (Z.of_nat (length orders)).
Proof.
  intros H. destruct (count_reduce_sum _ H ∅ 0) as (counts & E & Hs); [done|].
  exists counts. split; [done|]. by rewrite Hs.
Qed.

(** The two forms of [count] differ only in how the entry is written, and
    the two ways of writing agree except at the key [__proto__]. *)
Lemma count_equiv orders :
  Forall (λ o, Order.code o ≠ "__proto__") orders →
  count_imperative orders = count_declarative orders.
Proof.
  intros H. unfold count_imperative, count_declarative.
  rewrite bind_ret, for_of_reduce. apply reduce_ext.
  eapply Forall_impl; [exact H|]. intros [order code] Hne counts. simpl in *.
  f_equal. unfold Set_. destruct (counts !! code); [done|].
  by case_decide.
Qed.

(** Neither form of [count] reads the [order] field. *)
Lemma foldl_codes (f : gmap string prim → string → gmap string prim)
    orders1 orders2 :
  Forall2 (λ o1 o2, Order.code o1 = Order.code o2) orders1 orders2 →
  ∀ counts,
    foldl (λ counts o, f counts (Order.code o)) counts orders1
    = foldl (λ counts o, f counts (Order.code o)) counts orders2.
Proof.
  induction 1 as [|o1 o2 rest1 rest2 Hc _ IH]; intros counts; [done|].
  simpl. rewrite Hc. apply IH.
Qed.

(** ** The store: a program logic for [Heap.M] *)

Section ProgramLogic.

Context {A : Type}.
Implicit Types (h : gmap positive Heap.obj) (Q : A → gmap positive Heap.obj → Prop).
Implicit Types (T : error → gmap positive Heap.obj → Prop).

Lemma wp_ret (a : A) h Q T : Q a h → Heap.wp (mret a) h Q T.
Proof. done. Qed.

Lemma wp_throw e h Q T : T e h → Heap.wp (Heap.throw e) h Q T.
Proof. done. Qed.

Lemma wp_bind {B} (m : Heap.M B) (f : B → Heap.M A) h Q T :
  Heap.wp m h (λ b h', Heap.wp (f b) h' Q T) T → Heap.wp (m ≫= f) h Q T.
Proof.
  unfold Heap.wp, mbind, Heap.M_bind.
  by destruct (m h) as [[[b|e] h']|].
Qed.

Lemma wp_mono (m : Heap.M A) h Q Q' T T' :
  Heap.wp m h Q T →
  (∀ a h', Q a h' → Q' a h') → (∀ e h', T e h' → T' e h') →
  Heap.wp m h Q' T'.
Proof.
  unfold Heap.wp. destruct (m h) as [[[a|e] h']|]; auto.
Qed.

End ProgramLogic.

Section ProgramLogicOps.

Implicit Types (h : gmap positive Heap.obj).
Implicit Types (T : error → gmap positive Heap.obj → Prop).

Lemma wp_alloc o h (Q : positive → _ → Prop) T :
  (∀ l, l ∉ dom h → Q l (<[l := o]> h)) → Heap.wp (Heap.alloc o) h Q T.
Proof. intros H. apply H, is_fresh. Qed.

Lemma wp_store l o h (Q : unit → _ → Prop) T :
  Q () (<[l := o]> h) → Heap.wp (Heap.store l o) h Q T.
Proof. done. Qed.

Lemma wp_read_array a elements h (Q : list Heap.val → _ → Prop) T :
  h !! a = Some (Heap.Array elements) → Q elements h →
  Heap.wp (Heap.read_array a) h Q T.
Proof. unfold Heap.wp, Heap.read_array. by intros ->. Qed.

Lemma wp_read_object o properties h (Q : gmap string Heap.val → _ → Prop) T :
  h !! o = Some (Heap.Object properties) → Q properties h →
  Heap.wp (Heap.read_object o) h Q T.
Proof. unfold Heap.wp, Heap.read_object. by intros ->. Qed.

Lemma wp_array_length a elements h (Q : nat → _ → Prop) T :
  h !! a = Some (Heap.Array elements) → Q (length elements) h →
  Heap.wp (Heap.array_length a) h Q T.
Proof.
  intros Ha HQ. apply wp_bind. by apply (wp_read_array _ elements).
Qed.

Lemma wp_array_get a elements i v h (Q : Heap.val → _ → Prop) T :
  h !! a = Some (Heap.Array elements) → elements !! i = Some v → Q v h →
  Heap.wp (Heap.array_get a i) h Q T.
Proof.
  intros Ha Hi HQ. apply wp_bind, (wp_read_array _ elements); [done|].
  by rewrite Hi.
Qed.

Lemma wp_push a elements v h (Q : unit → _ → Prop) T :
  h !! a = Some (Heap.Array elements) →
  Q () (<[a := Heap.Array (elements ++ [v])]> h) →
  Heap.wp (Heap.push a v) h Q T.
Proof.
  intros Ha HQ. by apply wp_bind, (wp_read_array _ elements).
Qed.

Lemma wp_as_string s h (Q : string → _ → Prop) T :
  Q s h → Heap.wp (Heap.as_string (Heap.VStr s)) h Q T.
Proof. done. Qed.

(** The loop rule: [I j s h] holds before element [j] is visited. *)
Lemma wp_iterate {S} (I : nat → S → _ → Prop) a elements
    (body : Heap.val → S → Heap.M S) T (n i : nat) s h :
  (i + n)%nat = length elements →
  I i s h →
  (∀ j s h, I j s h → h !! a = Some (Heap.Array elements)) →
  (∀ j x s h, I j s h → elements !! j = Some x →
     Heap.wp (body x s) h (I (Datatypes.S j)) T) →
  Heap.wp (Heap.iterate n i a body s) h (I (length elements)) T.
Proof.
  intros Hn HI Ha Hbody. revert i s h Hn HI.
  induction n as [|n IH]; intros i s h Hn HI; simpl.
  - apply wp_ret. replace (length elements) with i by lia. done.
  - destruct (lookup_lt_is_Some_2 elements i) as [x Hx]; [lia|].
    apply wp_bind, (wp_array_get _ elements _ x); eauto.
    apply wp_bind. eapply wp_mono; [by eapply Hbody| |done].
    intros s' h' HI'. apply IH; [lia|done].
Qed.

End ProgramLogicOps.

Section Frame.

Implicit Types (h : gmap positive Heap.obj).
Implicit Types (T : error → gmap positive Heap.obj → Prop).

Lemma wp_forEach (I : nat → _ → Prop) a elements
    (body : Heap.val → Heap.M unit) T h :
  I O h →
  (∀ j h, I j h → h !! a = Some (Heap.Array elements)) →
  (∀ j x h, I j h → elements !! j = Some x →
     Heap.wp (body x) h (λ _, I (Datatypes.S j)) T) →
  Heap.wp (Heap.forEach a body) h (λ _, I (length elements)) T.
Proof.
  intros HI Ha Hbody.
  apply wp_bind, (wp_array_length _ elements); [eauto|].
  apply (wp_iterate (λ j _, I j) a elements); eauto.
Qed.

Lemma wp_reduce {B} (I : nat → B → _ → Prop) a elements
    (callback : B → Heap.val → Heap.M B) initialValue T h :
  I O initialValue h →
  (∀ j acc h, I j acc h → h !! a = Some (Heap.Array elements)) →
  (∀ j x acc h, I j acc h → elements !! j = Some x →
     Heap.wp (callback acc x) h (I (Datatypes.S j)) T) →
  Heap.wp (Heap.reduce a callback initialValue) h (I (length elements)) T.
Proof.
  intros HI Ha Hbody.
  apply wp_bind, (wp_array_length _ elements); [eauto|].
  apply (wp_iterate I a elements); eauto.
Qed.

Lemma unchanged_refl h : Heap.unchanged h h.
Proof. by intros l. Qed.

Lemma unchanged_lookup h h' l o :
  Heap.unchanged h h' → h !! l = Some o → h' !! l = Some o.
Proof. intros Hu Hl. rewrite Hu; [done|]. by apply elem_of_dom. Qed.

Lemma unchanged_insert h h' l o :
  Heap.unchanged h h' → l ∉ dom h → Heap.unchanged h (<[l := o]> h').
Proof.
  intros Hu Hl l' Hl'. rewrite lookup_insert_ne; [by apply Hu|].
  by intros ->.
Qed.

Lemma unchanged_dom h h' l : Heap.unchanged h h' → l ∈ dom h → l ∈ dom h'.
Proof.
  intros Hu Hl. apply elem_of_dom. rewrite (Hu _ Hl). by apply elem_of_dom.
Qed.

(** A loop that pushes [f x] for the elements [x] that satisfy [p] onto
    an array [r] created after [h] was taken: the loops of
    [transformData] and [transformAndFilterData] and the built-in [map]
    and [filter]. *)
Lemma wp_push_loop (p : string → bool) (f : string → string)
    (body : Heap.val → Heap.M unit) a r strings old h0 h :
  Heap.is_string_array h0 a strings →
  Heap.unchanged h0 h → r ∉ dom h0 →
  h !! r = Some (Heap.Array (Heap.VStr <$> old)) →
  (∀ s h' elements (Q : unit → _ → Prop),
     h' !! r = Some (Heap.Array elements) →
     (p s = true →
      Q () (<[r := Heap.Array (elements ++ [Heap.VStr (f s)])]> h')) →
     (p s = false → Q () h') →
     Heap.wp (body (Heap.VStr s)) h' Q (λ _ _, False)) →
  Heap.wp (Heap.forEach a body) h
    (λ _ h', Heap.unchanged h0 h' ∧
             Heap.is_string_array h' r (old ++ map f (List.filter p strings)))
    (λ _ _, False).
Proof.
  intros Ha Hu Hr Hold Hbody.
  eapply wp_mono;
    [apply (wp_forEach
              (λ j h', Heap.unchanged h0 h' ∧
                 Heap.is_string_array h' r
                   (old ++ map f (List.filter p (take j strings))))
              a (Heap.VStr <$> strings) body (λ _ _, False))| |done].
  - split; [done|]. unfold Heap.is_string_array. simpl.
    by rewrite app_nil_r.
  - intros j h' [Hu' _]. by eapply unchanged_lookup.
  - intros j x h' [Hu' Hr'] Hx.
    apply list_lookup_fmap_Some in Hx as (s & -> & Hs).
    rewrite (take_S_r _ _ _ Hs), List.filter_app. simpl.
    eapply Hbody; [exact Hr'| |].
    + intros Hp. rewrite Hp. split.
      * by apply unchanged_insert.
      * unfold Heap.is_string_array in *. rewrite lookup_insert_eq.
        rewrite List.map_app, !fmap_app, app_assoc. done.
    + intros Hp. rewrite Hp. simpl. by rewrite app_nil_r.
  - intros [] h'. by rewrite length_fmap, firstn_all.
Qed.

End Frame.

Section StringArrays.

Implicit Types (h : gmap positive Heap.obj).

Lemma unchanged_trans h1 h2 h3 :
  Heap.unchanged h1 h2 → Heap.unchanged h2 h3 → Heap.unchanged h1 h3.
Proof.
  intros H12 H23 l Hl. rewrite H23, H12; [done..|].
  by eapply unchanged_dom.
Qed.

Lemma filter_true {A} (l : list A) : List.filter (λ _, true) l = l.
Proof. induction l; simpl; congruence. Qed.

(** An array is created, filled by a push loop and returned. *)
Lemma wp_collect (p : string → bool) (f : string → string)
    (body : positive → Heap.val → Heap.M unit) a strings h :
  Heap.is_string_array h a strings →
  (∀ r s h' elements (Q : unit → _ → Prop),
     h' !! r = Some (Heap.Array elements) →
     (p s = true →
      Q () (<[r := Heap.Array (elements ++ [Heap.VStr (f s)])]> h')) →
     (p s = false → Q () h') →
     Heap.wp (body r (Heap.VStr s)) h' Q (λ _ _, False)) →
  Heap.wp (result ← Heap.alloc (Heap.Array []);
           Heap.forEach a (body result);; mret result) h
    (λ r h', (r ∉ dom h) ∧ Heap.unchanged h h' ∧
             Heap.is_string_array h' r (map f (List.filter p strings)))
    (λ _ _, False).
Proof.
  intros Ha Hbody. apply wp_bind, wp_alloc. intros r Hr.
  apply wp_bind.
  eapply wp_mono;
    [apply (wp_push_loop p f (body r) a r strings [] h); eauto| |done].
  - apply unchanged_insert; [apply unchanged_refl|done].
  - by rewrite lookup_insert_eq.
  - intros [] h' [Hu Hout]. by apply wp_ret.
Qed.

Variable toUpperCase : string → string.

Lemma heap_transformData_imperative a strings h :
  Heap.is_string_array h a strings →
  Heap.wp (Heap.transformData_imperative toUpperCase a) h
    (λ r h', (r ∉ dom h) ∧ Heap.unchanged h h' ∧
             Heap.is_string_array h' r (map toUpperCase strings))
    (λ _ _, False).
Proof.
  intros Ha.
  eapply wp_mono;
    [apply (wp_collect (λ _, true) toUpperCase
              (λ result element,
                 element ← Heap.as_string element;
                 Heap.push result (Heap.VStr (toUpperCase element)))
              a strings h Ha)| |done].
  - intros r s h' elements Q Hr Hpush _.
    apply wp_bind, wp_as_string. apply (wp_push _ elements); auto.
  - intros r h'. by rewrite filter_true.
Qed.

Lemma heap_array_map_toUpperCase a strings h :
  Heap.is_string_array h a strings →
  Heap.wp (Heap.array_map a (λ element,
             element ← Heap.as_string element;
             mret (Heap.VStr (toUpperCase element)))) h
    (λ r h', (r ∉ dom h) ∧ Heap.unchanged h h' ∧
             Heap.is_string_array h' r (map toUpperCase strings))
    (λ _ _, False).
Proof.
  intros Ha.
  eapply wp_mono;
    [apply (wp_collect (λ _, true) toUpperCase
              (λ A x,
                 y ← (element ← Heap.as_string x;
                      mret (Heap.VStr (toUpperCase element)));
                 Heap.push A y)
              a strings h Ha)| |done].
  - intros r s h' elements Q Hr Hpush _.
    apply wp_bind, wp_bind, wp_as_string, wp_ret.
    apply (wp_push _ elements); auto.
  - intros r h'. by rewrite filter_true.
Qed.

Lemma heap_transformData_declarative a strings h :
  Heap.is_string_array h a strings →
  Heap.wp (Heap.transformData_declarative toUpperCase a) h
    (λ r h', (r ∉ dom h) ∧ Heap.unchanged h h' ∧
             Heap.is_string_array h' r (map toUpperCase strings))
    (λ _ _, False).
Proof. apply heap_array_map_toUpperCase. Qed.

Lemma heap_transformAndFilterData_imperative a strings h :
  Heap.is_string_array h a strings →
  Heap.wp (Heap.transformAndFilterData_imperative toUpperCase a) h
    (λ r h', (r ∉ dom h) ∧ Heap.unchanged h h' ∧
             Heap.is_string_array h' r
               (map toUpperCase
                  (List.filter (λ element, startsWith element "x") strings)))
    (λ _ _, False).
Proof.
  intros Ha.
  apply (wp_collect (λ element, startsWith element "x") toUpperCase
           (λ result element,
              element ← Heap.as_string element;
              if negb (startsWith element "x") then mret ()
              else Heap.push result (Heap.VStr (toUpperCase element))));
    [done|].
  intros r s h' elements Q Hr Hpush Hskip.
  apply wp_bind, wp_as_string.
  destruct (startsWith s "x"); simpl.
  - apply (wp_push _ elements); auto.
  - apply wp_ret; auto.
Qed.

Lemma heap_transformAndFilterData_declarative a strings h :
  Heap.is_string_array h a strings →
  Heap.wp (Heap.transformAndFilterData_declarative toUpperCase a) h
    (λ r h', (r ∉ dom h) ∧ Heap.unchanged h h' ∧
             Heap.is_string_array h' r
               (map toUpperCase
                  (List.filter (λ element, startsWith element "x") strings)))
    (λ _ _, False).
Proof.
  intros Ha. apply wp_bind.
  eapply wp_mono;
    [apply (wp_collect (λ element, startsWith element "x") id
              (λ A x,
                 keep ← (element ← Heap.as_string x;
                         mret (startsWith element "x"));
                 if keep : bool then Heap.push A x else mret ())
              a strings h Ha)| |done].
  - intros r s h' elements Q Hr Hpush Hskip.
    apply wp_bind, wp_bind, wp_as_string, wp_ret.
    destruct (startsWith s "x"); simpl.
    + apply (wp_push _ elements); auto.
    + apply wp_ret; auto.
  - intros filtered h1 (Hfresh & Hu & Hfiltered). rewrite map_id in Hfiltered.
    eapply wp_mono; [by apply heap_array_map_toUpperCase| |done].
    intros r h2 (Hr & Hu2 & Hout). split_and!.
    + intros Hin. apply Hr. by eapply unchanged_dom.
    + by eapply unchanged_trans.
    + done.
Qed.

End StringArrays.

Section Records.

Implicit Types (h : gmap positive Heap.obj).

Lemma wp_field v fields k s h0 h (Q : string → _ → Prop) T :
  Heap.is_record h0 v fields → Heap.unchanged h0 h → (k, s) ∈ fields →
  Q s h → Heap.wp (Heap.field v k) h Q T.
Proof.
  intros (r & properties & -> & Hr & Hfields) Hu Hk HQ. simpl.
  apply wp_bind, (wp_read_object _ properties);
    [by eapply unchanged_lookup|].
  rewrite Forall_forall in Hfields. by rewrite (Hfields _ Hk).
Qed.

Lemma wp_get_property o properties k h (Q : got Heap.val → _ → Prop) T :
  h !! o = Some (Heap.Object properties) → Q (Get properties k) h →
  Heap.wp (Heap.get_property o k) h Q T.
Proof.
  intros Ho HQ. by apply wp_bind, (wp_read_object _ properties).
Qed.

Lemma wp_spread_with o properties k v h (Q : positive → _ → Prop) T :
  h !! o = Some (Heap.Object properties) →
  (∀ l, l ∉ dom h → Q l (<[l := Heap.Object (<[k := v]> properties)]> h)) →
  Heap.wp (Heap.spread_with o k v) h Q T.
Proof.
  intros Ho HQ. apply wp_bind, (wp_read_object _ properties); [done|].
  by apply wp_alloc.
Qed.

(** A write of a key that is an own property or is not [__proto__]. *)
Lemma wp_set_property o properties k v h (Q : unit → _ → Prop) T :
  h !! o = Some (Heap.Object properties) →
  is_Some (properties !! k) ∨ k ≠ "__proto__" →
  Q () (<[o := Heap.Object (<[k := v]> properties)]> h) →
  Heap.wp (Heap.set_property o k v) h Q T.
Proof.
  intros Ho Hk HQ. apply wp_bind, (wp_read_object _ properties); [done|].
  destruct (properties !! k) eqn:E; [done|].
  destruct Hk as [[? [=]]|Hk]. by case_decide.
Qed.

End Records.

Section Counting.

Implicit Types (h : gmap positive Heap.obj).

Lemma count_imperative_fold orders :
  count_imperative orders = Return (foldl count_assign ∅ orders).
Proof.
  unfold count_imperative. rewrite bind_ret, for_of_reduce.
  rewrite <- reduce_pure. apply reduce_ext, Forall_forall.
  by intros [order code] _ counts.
Qed.

Lemma count_declarative_fold orders :
  count_declarative orders = Return (foldl count_define ∅ orders).
Proof.
  unfold count_declarative.
  rewrite <- reduce_pure. apply reduce_ext, Forall_forall.
  by intros [order code] _ counts.
Qed.

Lemma Get_fmap {V W} (f : V → W) (o : gmap string V) k :
  Get (f <$> o) k
  = match Get o k with
    | Own v => Own (f v)
    | Inherited b => Inherited b
    | Undefined => Undefined
    end.
Proof.
  unfold Get. rewrite lookup_fmap.
  destruct (o !! k); simpl; [done|]. by destruct (Object_prototype k).
Qed.

(** [(o[k] ?? 0) + 1] on a stored object of counts. *)
Lemma wp_or_zero_plus_one o counts k h (Q : prim → _ → Prop) T :
  h !! o = Some (Heap.Object (Heap.VPrim <$> counts)) →
  Q (or_zero_plus_one (Get counts k)) h →
  Heap.wp (found ← Heap.get_property o k; Heap.or_zero_plus_one found) h Q T.
Proof.
  intros Ho HQ. apply wp_bind, (wp_get_property _ _ _ _ _ _ Ho).
  rewrite Get_fmap. by destruct (Get counts k).
Qed.

Lemma heap_count_imperative a orders h :
  Heap.is_order_array h a orders →
  Heap.wp (Heap.count_imperative a) h
    (λ r h', Heap.unchanged h h' ∧
             Heap.is_counting (dom h) h' r (foldl count_assign ∅ orders))
    (λ _ _, False).
Proof.
  intros (elements & Ha & Hrecords).
  apply wp_bind, wp_alloc. intros r Hr. apply wp_bind.
  eapply wp_mono;
    [apply (wp_forEach
              (λ j h', Heap.unchanged h h' ∧
                 h' !! r = Some (Heap.Object
                   (Heap.VPrim <$> foldl count_assign ∅ (take j orders))))
              a elements _ (λ _ _, False))| |done].
  - split; [|by rewrite lookup_insert_eq].
    apply unchanged_insert; [apply unchanged_refl|done].
  - intros j h' [Hu _]. by eapply unchanged_lookup.
  - intros j x h' [Hu Hres] Hx.
    destruct (Forall2_lookup_l _ _ _ _ _ Hrecords Hx) as (o & Ho & Hrec).
    rewrite (take_S_r _ _ _ Ho), foldl_app. simpl.
    set (counts := foldl count_assign ∅ (take j orders)) in *.
    apply wp_bind, (wp_field _ _ "code" (Order.code o) h _ _ _ Hrec Hu);
      [set_solver|].
    apply wp_bind, (wp_or_zero_plus_one _ counts); [done|].
    unfold count_assign at 1, Set_.
    apply wp_bind, (wp_read_object _ _ _ _ _ Hres).
    rewrite lookup_fmap.
    destruct (counts !! Order.code o) eqn:E; simpl.
    + apply wp_store. split; [by apply unchanged_insert|].
      by rewrite lookup_insert_eq, fmap_insert.
    + case_decide.
      * by apply wp_ret.
      * apply wp_store. split; [by apply unchanged_insert|].
        by rewrite lookup_insert_eq, fmap_insert.
  - intros [] h' [Hu Hres]. apply wp_ret. split; [done|]. split; [done|].
    rewrite (Forall2_length _ _ _ Hrecords), firstn_all in Hres.
    done.
Qed.

Lemma heap_count_declarative a orders h :
  Heap.is_order_array h a orders →
  Heap.wp (Heap.count_declarative a) h
    (λ r h', Heap.unchanged h h' ∧
             Heap.is_counting (dom h) h' r (foldl count_define ∅ orders))
    (λ _ _, False).
Proof.
  intros (elements & Ha & Hrecords).
  apply wp_bind, wp_alloc. intros r Hr.
  eapply wp_mono;
    [apply (wp_reduce
              (λ j acc h', Heap.unchanged h h' ∧ (acc ∉ dom h) ∧
                 h' !! acc = Some (Heap.Object
                   (Heap.VPrim <$> foldl count_define ∅ (take j orders))))
              a elements _ _ (λ _ _, False))| |done].
  - split_and!; [|done|by rewrite lookup_insert_eq].
    apply unchanged_insert; [apply unchanged_refl|done].
  - intros j acc h' [Hu _]. by eapply unchanged_lookup.
  - intros j x acc h' (Hu & Hacc & Hres) Hx.
    destruct (Forall2_lookup_l _ _ _ _ _ Hrecords Hx) as (o & Ho & Hrec).
    rewrite (take_S_r _ _ _ Ho), foldl_app. simpl.
    set (counts := foldl count_define ∅ (take j orders)) in *.
    apply wp_bind, (wp_field _ _ "code" (Order.code o) h _ _ _ Hrec Hu);
      [set_solver|].
    apply wp_bind, (wp_or_zero_plus_one _ counts); [done|].
    apply (wp_spread_with _ _ _ _ _ _ _ Hres). intros l Hl.
    assert (l ∉ dom h) by (intros ?; apply Hl; by eapply unchanged_dom).
    split_and!; [by apply unchanged_insert|done|].
    unfold count_define. by rewrite lookup_insert_eq, fmap_insert.
  - intros r' h' (Hu & Hr' & Hres). split; [done|]. split; [done|].
    rewrite (Forall2_length _ _ _ Hrecords), firstn_all in Hres.
    done.
Qed.

End Counting.

Section Grouping.

Implicit Types (h : gmap positive Heap.obj).

Lemma groupData_declarative_fold discounts :
  groupData_declarative discounts = reduce group_define ∅ discounts.
Proof.
  unfold groupData_declarative. apply reduce_ext, Forall_forall.
  by intros [code discount] _ grouped.
Qed.

Lemma reduce_take_S {A B} (f : B → A → completion B) b array j x acc :
  array !! j = Some x →
  reduce f b (take j array) = Return acc →
  reduce f b (take (S j) array) = f acc x.
Proof.
  intros Hx Hacc. rewrite (take_S_r _ _ _ Hx), reduce_app, Hacc. simpl.
  by destruct (f acc x).
Qed.

Lemma reduce_take_throw {A B} (f : B → A → completion B) b array j e :
  reduce f b (take j array) = Throw e → reduce f b array = Throw e.
Proof.
  intros H. rewrite <- (take_drop j array), reduce_app, H. done.
Qed.

Lemma holds_groups_store old h h' properties grouped :
  (∀ l codes, Heap.is_string_array h l codes →
              Heap.is_string_array h' l codes) →
  Heap.holds_groups old h properties grouped →
  Heap.holds_groups old h' properties grouped.
Proof.
  intros Hh Hg d. specialize (Hg d).
  destruct (grouped !! d); [|done].
  destruct Hg as (la & ? & ? & ?). exists la. auto.
Qed.

Lemma holds_groups_insert old h properties grouped d l codes :
  Heap.holds_groups old h properties grouped →
  l ∉ old → Heap.is_string_array h l codes →
  Heap.holds_groups old h (<[d := Heap.VRef l]> properties)
    (<[d := codes]> grouped).
Proof.
  intros Hg Hl Harr d'. destruct (decide (d = d')) as [<-|Hne].
  - rewrite !lookup_insert_eq. by exists l.
  - rewrite !lookup_insert_ne by done. apply Hg.
Qed.

(** [o[d]?.concat(code) ?? [code]] on a stored grouping. *)
Lemma wp_concat_or_singleton old h o properties grouped d code
    (Q : positive → _ → Prop) T :
  h !! o = Some (Heap.Object properties) →
  Heap.holds_groups old h properties grouped →
  match concat_or_singleton (Get grouped d) code with
  | Return codes =>
      ∀ l, l ∉ dom h → Q l (<[l := Heap.Array (Heap.VStr <$> codes)]> h)
  | Throw e => T e h
  end →
  Heap.wp (found ← Heap.get_property o d;
           Heap.concat_or_singleton found code) h Q T.
Proof.
  intros Ho Hg HQ. apply wp_bind, (wp_get_property _ _ _ _ _ _ Ho).
  specialize (Hg d). unfold Get in *.
  destruct (grouped !! d) as [codes|].
  - destruct Hg as (la & -> & _ & Harr). simpl in *.
    apply wp_bind, (wp_read_array _ _ _ _ _ Harr), wp_alloc.
    intros l' Hl'. rewrite fmap_app in HQ. by apply HQ.
  - rewrite Hg. destruct (Object_prototype d); simpl in *.
    + by apply wp_throw.
    + by apply wp_alloc.
Qed.

Lemma grouped_so_far_end h0 discounts n acc h :
  n = length discounts →
  grouped_so_far h0 discounts n acc h →
  Heap.unchanged h0 h ∧
  ∃ grouped, groupData_declarative discounts = Return grouped ∧
             Heap.is_grouping (dom h0) h acc grouped.
Proof.
  intros -> [Hu (grouped & Hred & Hg)]. split; [done|]. exists grouped.
  rewrite firstn_all in Hred. by rewrite groupData_declarative_fold.
Qed.

(** A string array of [h] is still there after a write to a location
    that holds no array in [h]. *)
Lemma is_string_array_insert h l o la codes :
  (∀ elements, h !! l ≠ Some (Heap.Array elements)) →
  Heap.is_string_array h la codes →
  Heap.is_string_array (<[l := o]> h) la codes.
Proof.
  intros Hl Hla. unfold Heap.is_string_array in *.
  rewrite lookup_insert_ne; [done|]. intros ->. by eapply Hl.
Qed.

(** One step of either grouping, up to the write: the codes are computed
    into a new array [l], or the step throws. *)
Lemma wp_group_codes h0 discounts j acc h r (Q : positive → _ → Prop) T :
  grouped_so_far h0 discounts j acc h →
  discounts !! j = Some r →
  (∀ e, group_define_throws discounts e → T e h) →
  (∀ l properties codes,
     l ∉ dom h →
     h !! acc = Some (Heap.Object properties) →
     is_Some (properties !! Discount.discount r)
       ∨ Discount.discount r ≠ "__proto__" →
     (∀ h', Heap.unchanged h0 h' →
        (∀ la cs, Heap.is_string_array
                    (<[l := Heap.Array (Heap.VStr <$> codes)]> h) la cs →
                  Heap.is_string_array h' la cs) →
        ∀ acc', acc' ∉ dom h0 →
          h' !! acc' = Some (Heap.Object
              (<[Discount.discount r := Heap.VRef l]> properties)) →
          grouped_so_far h0 discounts (S j) acc' h') →
     Q l (<[l := Heap.Array (Heap.VStr <$> codes)]> h)) →
  Heap.wp (found ← Heap.get_property acc (Discount.discount r);
           Heap.concat_or_singleton found (Discount.code r)) h Q T.
Proof.
  intros (Hu & grouped & Hred & Hacc & properties & Hres & Hg) Hr HT HQ.
  apply (wp_concat_or_singleton (dom h0) _ _ properties grouped); [done..|].
  pose proof (reduce_take_S _ _ _ _ _ _ Hr Hred) as Hstep.
  unfold group_define at 2 in Hstep.
  destruct (concat_or_singleton _ _) as [codes|e] eqn:E; simpl in Hstep.
  - intros l Hl.
    assert (l ∉ dom h0) by (intros ?; apply Hl; by eapply unchanged_dom).
    apply (HQ l properties codes); [done..| |].
    { pose proof (Hg (Discount.discount r)) as Hd. unfold Get in E.
      destruct (grouped !! Discount.discount r).
      - destruct Hd as (la & -> & _). by left; eexists.
      - right. intros Heq. rewrite Heq in E. done. }
    intros h' Hu' Harr acc' Hacc' Hres'. split; [done|].
    exists (<[Discount.discount r := codes]> grouped). split; [done|].
    split; [done|]. eexists. split; [exact Hres'|].
    apply holds_groups_insert; [|done|].
    + eapply holds_groups_store; [|exact Hg]. intros la cs Hla.
      apply Harr. unfold Heap.is_string_array.
      rewrite lookup_insert_ne; [done|]. intros ->.
      apply Hl. apply elem_of_dom. by eexists.
    + apply Harr. unfold Heap.is_string_array. by rewrite lookup_insert_eq.
  - apply HT. unfold group_define_throws.
    by eapply reduce_take_throw.
Qed.

Lemma grouped_so_far_start h r :
  r ∉ dom h → grouped_so_far h [] O r (<[r := Heap.Object ∅]> h).
Proof.
  intros Hr. split; [apply unchanged_insert; [apply unchanged_refl|done]|].
  exists ∅. split; [done|]. split; [done|]. exists ∅.
  split; [by rewrite lookup_insert_eq|]. intros d. by rewrite !lookup_empty.
Qed.

Lemma heap_groupData_imperative a discounts h :
  Heap.is_discount_array h a discounts →
  Heap.wp (Heap.groupData_imperative a) h
    (λ r h', Heap.unchanged h h' ∧
             ∃ grouped, groupData_declarative discounts = Return grouped ∧
                        Heap.is_grouping (dom h) h' r grouped)
    (λ e h', Heap.unchanged h h' ∧ groupData_declarative discounts = Throw e).
Proof.
  intros (elements & Ha & Hrecords).
  apply wp_bind, wp_alloc. intros result Hresult. apply wp_bind.
  eapply wp_mono;
    [apply (wp_forEach (λ j h', grouped_so_far h discounts j result h')
              a elements _
              (λ e h', Heap.unchanged h h' ∧ group_define_throws discounts e))
    | |].
  - by apply (grouped_so_far_start h result).
  - intros j h' [Hu _]. by eapply unchanged_lookup.
  - intros j x h' Hinv Hx.
    destruct (Forall2_lookup_l _ _ _ _ _ Hrecords Hx) as (r & Hr & Hrec).
    pose proof Hinv as [Hu _].
    apply wp_bind, (wp_field _ _ "code" (Discount.code r) h _ _ _ Hrec Hu);
      [set_solver|].
    apply wp_bind,
      (wp_field _ _ "discount" (Discount.discount r) h _ _ _ Hrec Hu);
      [set_solver|].
    apply wp_bind, (wp_group_codes h discounts j result h' r); [done..| |].
    { by intros e He. }
    intros l properties codes Hl Hres Hkey Hnext.
    assert (l ≠ result).
    { intros ->. apply Hl, elem_of_dom. by eexists. }
    apply (wp_set_property _ properties);
      [by rewrite lookup_insert_ne|done|].
    apply Hnext.
    + do 2 (apply unchanged_insert;
            [|intros ?; apply Hl || apply Hresult; by eapply unchanged_dom]).
      done.
    + intros la cs Hla. apply is_string_array_insert; [|done].
      intros els. rewrite lookup_insert_ne by done. by rewrite Hres.
    + done.
    + by rewrite lookup_insert_eq.
  - intros [] h' Hinv. apply wp_ret.
    apply (grouped_so_far_end _ _ _ _ _ (Forall2_length _ _ _ Hrecords) Hinv).
  - intros e h' [Hu He]. split; [done|].
    by rewrite groupData_declarative_fold.
Qed.

Lemma heap_groupData_declarative a discounts h :
  Heap.is_discount_array h a discounts →
  Heap.wp (Heap.groupData_declarative a) h
    (λ r h', Heap.unchanged h h' ∧
             ∃ grouped, groupData_declarative discounts = Return grouped ∧
                        Heap.is_grouping (dom h) h' r grouped)
    (λ e h', Heap.unchanged h h' ∧ groupData_declarative discounts = Throw e).
Proof.
  intros (elements & Ha & Hrecords).
  apply wp_bind, wp_alloc. intros initial Hinitial.
  eapply wp_mono;
    [apply (wp_reduce (λ j acc h', grouped_so_far h discounts j acc h')
              a elements _ _
              (λ e h', Heap.unchanged h h' ∧ group_define_throws discounts e))
    | |].
  - by apply (grouped_so_far_start h initial).
  - intros j acc h' [Hu _]. by eapply unchanged_lookup.
  - intros j x acc h' Hinv Hx.
    destruct (Forall2_lookup_l _ _ _ _ _ Hrecords Hx) as (r & Hr & Hrec).
    pose proof Hinv as [Hu _].
    apply wp_bind,
      (wp_field _ _ "discount" (Discount.discount r) h _ _ _ Hrec Hu);
      [set_solver|].
    apply wp_bind, (wp_field _ _ "code" (Discount.code r) h _ _ _ Hrec Hu);
      [set_solver|].
    apply wp_bind, (wp_group_codes h discounts j acc h' r); [done..| |].
    { by intros e He. }
    intros l properties codes Hl Hres Hkey Hnext.
    assert (l ≠ acc).
    { intros ->. apply Hl, elem_of_dom. by eexists. }
    apply (wp_spread_with _ properties); [by rewrite lookup_insert_ne|].
    intros acc' Hacc'.
    assert (acc' ∉ dom h).
    { intros ?. apply Hacc'. apply dom_insert, elem_of_union_r.
      by eapply unchanged_dom. }
    apply Hnext.
    + do 2 (apply unchanged_insert; [|done || (intros ?; apply Hl;
                                                by eapply unchanged_dom)]).
      done.
    + intros la cs Hla. apply is_string_array_insert; [|done].
      intros els Hels. apply Hacc', elem_of_dom. by eexists.
    + done.
    + by rewrite lookup_insert_eq.
  - intros r h' Hinv.
    apply (grouped_so_far_end _ _ _ _ _ (Forall2_length _ _ _ Hrecords) Hinv).
  - intros e h' [Hu He]. split; [done|].
    by rewrite groupData_declarative_fold.
Qed.

End Grouping.

(** ** The examples of the script's comments and the spec's scenarios *)

(** index.ts 22-23 and scenario 1 *)
Example transformData_abcd :
  transformData_declarative toUpperCase_ascii ["a"; "b"; "c"; "d"]
  = Return ["A"; "B"; "C"; "D"]
  ∧ transformData_imperative toUpperCase_ascii ["a"; "b"; "c"; "d"]
    = Return ["A"; "B"; "C"; "D"].
Proof. split; reflexivity. Qed.

(** index.ts 35-36 and scenario 2 *)
Example filter_example_result : filter_example = [3; 4].
Proof. reflexivity. Qed.

(** index.ts 109: on [["x", "y", "z"]] the code keeps the element that
    starts with "x". *)
Example transformAndFilterData_xyz :
  transformAndFilterData_declarative toUpperCase_ascii ["x"; "y"; "z"]
  = Return ["X"]
  ∧ transformAndFilterData_imperative toUpperCase_ascii ["x"; "y"; "z"]
    = Return ["X"].
Proof. split; reflexivity. Qed.

(** index.ts 169-178 and scenario 5 *)
Example counting_example_output :
  count_declarative counting_example_input
  = Return {[ "A" := PNum 2; "B" := PNum 3 ]}
  ∧ count_imperative counting_example_input
    = Return {[ "A" := PNum 2; "B" := PNum 3 ]}.
Proof. split; vm_compute; reflexivity. Qed.

(** * The claims *)

Lemma groupData_declarative_throw_inv discounts e :
  groupData_declarative discounts = Throw e →
  Exists (λ r, inherited_key (Discount.discount r)) discounts.
Proof.
  intros Hthrow.
  destruct (decide (Forall (λ r, ¬ inherited_key (Discount.discount r))
                      discounts)) as [Hclean|Hdirty].
  - destruct (groupData_declarative_groups _ Hclean) as (grouped & E & _).
    congruence.
  - apply not_Forall_Exists in Hdirty; [|apply _].
    eapply Exists_impl; [exact Hdirty|]. intros r Hr. simpl in Hr.
    by apply dec_stable.
Qed.

(** C1.  The claim asks [groupData.declarative] to return, for every input,
    a mapping that holds every code under its discount.  On the input
    [[{code: "A", discount: "constructor"}]] it returns nothing: the read
    [grouped["constructor"]] on the empty object finds the function
    [Object] on the prototype, which is not nullish and has no [concat],
    and the call throws a TypeError.  ([groupData_declarative_groups]
    proves the claim for the inputs none of whose discounts names a
    property of [Object.prototype].) *)
Theorem groupData_declarative_constructor_throws :
  Get (∅ : gmap string (list string)) "constructor"
  = Inherited (BFunction "Object")
  ∧ groupData_declarative [Discount.mk "A" "constructor"] = Throw TypeError.
Proof. split; reflexivity. Qed.

(** C2.  The claim asks the counts returned by [count.declarative] to add
    up to the length of the input.  On the input
    [[{order: "ASDF-123456", code: "constructor"}]] the only entry is not a
    count but a string: [counts["constructor"]] finds the function [Object]
    on the prototype, [??] keeps it, and [+ 1] concatenates.
    ([count_declarative_sum] proves the claim for the inputs none of whose
    codes names a property of [Object.prototype].) *)
Theorem count_declarative_constructor_string :
  count_declarative [Order.mk "ASDF-123456" "constructor"]
  = Return {[ "constructor" := PStr "function Object() { [native code] }1" ]}
  ∧ sum_of_counts
      {[ "constructor" := PStr "function Object() { [native code] }1" ]}
    = None.
Proof. split; reflexivity. Qed.

(** C3.  For every sequence [S] of strings, [transformData.declarative]
    returns a sequence of the length of [S] whose element at every index
    [i] is [S[i]] upper-cased. *)
Theorem transformData_declarative_spec (toUpperCase : string → string)
    (S : list string) :
  ∃ out, transformData_declarative toUpperCase S = Return out ∧
         length out = length S ∧
         ∀ i, out !! i = toUpperCase <$> S !! i.
Proof.
  exists (map toUpperCase S). split; [done|]. split.
  - apply length_map.
  - intros i. apply list_lookup_fmap.
Qed.

(** C4.  For every sequence [S] of strings,
    [transformAndFilterData.declarative] returns the upper-cased forms of
    exactly the elements of [S] that start with "x" ([kept] below: a
    selection of [S], hence in the order of [S], an element being kept if
    and only if it starts with "x"), and the output is no longer than
    [S]. *)
Theorem transformAndFilterData_declarative_spec (toUpperCase : string → string)
    (S : list string) :
  ∃ kept out,
    transformAndFilterData_declarative toUpperCase S = Return out ∧
    selection (λ element, startsWith element "x") S kept ∧
    sublist kept S ∧
    (∀ element, element ∈ kept ↔ element ∈ S ∧ startsWith element "x" = true) ∧
    length out = length kept ∧
    (∀ i, out !! i = toUpperCase <$> kept !! i) ∧
    (length out ≤ length S)%nat.
Proof.
  pose proof (selection_filter (λ element, startsWith element "x") S) as Hsel.
  exists (List.filter (λ element, startsWith element "x") S).
  eexists. split; [reflexivity|]. split; [done|].
  pose proof (selection_sublist _ _ _ Hsel) as Hsub.
  split; [done|].
  split; [intros element; exact (selection_elem_of _ _ _ element Hsel)|].
  split; [apply length_map|]. split; [intros i; apply list_lookup_fmap|].
  rewrite length_map. by apply sublist_length.
Qed.

(** C5.  The claim asks the two forms of every use case to return equal
    results on every input.  The two forms of [count] differ on the input
    [[{order: "ASDF-123456", code: "__proto__"}]]: the assignment
    [result["__proto__"] = "[object Object]1"] of the imperative form runs
    the setter of [Object.prototype], which ignores a string, and the
    result stays empty, while the object literal of the declarative form
    defines an own property.  ([transformData_equiv],
    [transformAndFilterData_equiv] and [groupData_equiv] prove the claim
    for the other three use cases, [count_equiv] for [count] on the inputs
    without the code [__proto__].) *)
Theorem count_forms_differ_at_proto :
  count_imperative [Order.mk "ASDF-123456" "__proto__"] = Return ∅
  ∧ count_declarative [Order.mk "ASDF-123456" "__proto__"]
    = Return {[ "__proto__" := PStr "[object Object]1" ]}.
Proof. split; reflexivity. Qed.

(** C6, as the spec states it, fails: on the input of the grouping example
    neither form of [groupData] returns the mapping of scenario 4, which
    lists "E" under "1" although the record of "E" has discount "2". *)
Lemma scenario4_output_not_returned :
  groupData_imperative grouping_example_input ≠ Return scenario4_output
  ∧ groupData_declarative grouping_example_input ≠ Return scenario4_output.
Proof.
  split; intros H;
    apply (f_equal (λ c, match c with
                         | Return grouped => grouped !! "1"
                         | Throw _ => None
                         end)) in H;
    vm_compute in H; discriminate H.
Qed.

(** C6, amended.  On the input of the grouping example both forms of
    [groupData] return exactly the mapping
    [{"1": ["A", "C", "F"], "2": ["B", "E"]}]. *)
Theorem grouping_example_output :
  groupData_imperative grouping_example_input
  = Return {[ "1" := ["A"; "C"; "F"]; "2" := ["B"; "E"] ]}
  ∧ groupData_declarative grouping_example_input
    = Return {[ "1" := ["A"; "C"; "F"]; "2" := ["B"; "E"] ]}.
Proof. split; vm_compute; reflexivity. Qed.

(** C7.  Two inputs of equal length whose records agree pairwise on [code]
    give the same mapping, in either form of [count]: the output does not
    depend on the [order] fields. *)
Theorem count_ignores_order (orders1 orders2 : list Order.t) :
  Forall2 (λ o1 o2, Order.code o1 = Order.code o2) orders1 orders2 →
  count_imperative orders1 = count_imperative orders2
  ∧ count_declarative orders1 = count_declarative orders2.
Proof.
  intros Hcodes.
  rewrite !count_imperative_fold, !count_declarative_fold. split; f_equal.
  - apply (foldl_codes
             (λ result code, Set_ result code (or_zero_plus_one (Get result code)))
             _ _ Hcodes).
  - apply (foldl_codes
             (λ counts code, <[code := or_zero_plus_one (Get counts code)]> counts)
             _ _ Hcodes).
Qed.

Lemma count_ignores_order_witness :
  Forall2 (λ o1 o2, Order.code o1 = Order.code o2)
    counting_example_input counting_example_reordered
  ∧ count_imperative counting_example_input
    = count_imperative counting_example_reordered
  ∧ count_declarative counting_example_input
    = count_declarative counting_example_reordered.
Proof.
  assert (Forall2 (λ o1 o2, Order.code o1 = Order.code o2)
            counting_example_input counting_example_reordered) as Hcodes
    by (repeat constructor).
  split; [exact Hcodes|].
  exact (count_ignores_order _ _ Hcodes).
Defined.

Lemma wp_returns_fresh (m : Heap.M positive) (h : gmap positive Heap.obj) :
  Heap.wp m h (λ r h', (r ∉ dom h) ∧ Heap.unchanged h h') (λ _ _, False) →
  returns_fresh m h.
Proof.
  unfold Heap.wp, returns_fresh.
  destruct (m h) as [[[r|e] h']|]; [|done..]. intros [??]. by exists r, h'.
Qed.

Lemma wp_returns_fresh_or_throws may_throw (m : Heap.M positive)
    (h : gmap positive Heap.obj) :
  Heap.wp m h (λ r h', (r ∉ dom h) ∧ Heap.unchanged h h')
              (λ _ h', may_throw ∧ Heap.unchanged h h') →
  returns_fresh_or_throws may_throw m h.
Proof.
  unfold Heap.wp, returns_fresh_or_throws.
  destruct (m h) as [[[r|e] h']|]; [| |done]; intros [??].
  - by exists (Return r), h'.
  - by exists (Throw e), h'.
Qed.

(** C8.  Every one of the eight functions, called in any store on an
    input of its type (an array of strings, an array of
    [{code, discount}] records, an array of [{order, code}] records; no
    other object is asked of the store), leaves every object of the store
    as it was (so the input array and its elements are what they were
    before the call) and returns an object that was not in the store
    before the call.  [groupData], in either form, may instead throw, which
    it does only when a discount names a property of [Object.prototype],
    and leaves the store as it was then too. *)
Theorem use_cases_leave_input_unchanged (toUpperCase : string → string)
    (h : gmap positive Heap.obj) :
  (∀ array strings,
     Heap.is_string_array h array strings →
     returns_fresh (Heap.transformData_imperative toUpperCase array) h
     ∧ returns_fresh (Heap.transformData_declarative toUpperCase array) h
     ∧ returns_fresh
         (Heap.transformAndFilterData_imperative toUpperCase array) h
     ∧ returns_fresh
         (Heap.transformAndFilterData_declarative toUpperCase array) h)
  ∧ (∀ discounts discount_records,
       Heap.is_discount_array h discounts discount_records →
       returns_fresh_or_throws
         (Exists (λ r, inherited_key (Discount.discount r)) discount_records)
         (Heap.groupData_imperative discounts) h
       ∧ returns_fresh_or_throws
           (Exists (λ r, inherited_key (Discount.discount r))
              discount_records)
           (Heap.groupData_declarative discounts) h)
  ∧ (∀ orders order_records,
       Heap.is_order_array h orders order_records →
       returns_fresh (Heap.count_imperative orders) h
       ∧ returns_fresh (Heap.count_declarative orders) h).
Proof.
  split_and!.
  - intros array strings Hstrings. split_and!; apply wp_returns_fresh.
    + eapply wp_mono; [by apply heap_transformData_imperative| |done].
      by intros r h' (? & ? & _).
    + eapply wp_mono; [by apply heap_transformData_declarative| |done].
      by intros r h' (? & ? & _).
    + eapply wp_mono;
        [by apply heap_transformAndFilterData_imperative| |done].
      by intros r h' (? & ? & _).
    + eapply wp_mono;
        [by apply heap_transformAndFilterData_declarative| |done].
      by intros r h' (? & ? & _).
  - intros discounts discount_records Hdiscounts.
    split; apply wp_returns_fresh_or_throws.
    + eapply wp_mono; [by apply heap_groupData_imperative| |].
      * by intros r h' (? & grouped & _ & ? & _).
      * intros e h' [? Hthrow]. split; [|done].
        by eapply groupData_declarative_throw_inv.
    + eapply wp_mono; [by apply heap_groupData_declarative| |].
      * by intros r h' (? & grouped & _ & ? & _).
      * intros e h' [? Hthrow]. split; [|done].
        by eapply groupData_declarative_throw_inv.
  - intros orders order_records Horders. split; apply wp_returns_fresh.
    + eapply wp_mono; [by apply heap_count_imperative| |done].
      by intros r h' (? & ? & _).
    + eapply wp_mono; [by apply heap_count_declarative| |done].
      by intros r h' (? & ? & _).
Qed.

Lemma use_cases_leave_input_unchanged_witness :
  (Heap.is_string_array strings_only_store 1 ["x"; "y"]
   ∧ returns_fresh (Heap.transformData_imperative toUpperCase_ascii 1)
       strings_only_store
   ∧ returns_fresh (Heap.transformData_declarative toUpperCase_ascii 1)
       strings_only_store
   ∧ returns_fresh
       (Heap.transformAndFilterData_imperative toUpperCase_ascii 1)
       strings_only_store
   ∧ returns_fresh
       (Heap.transformAndFilterData_declarative toUpperCase_ascii 1)
       strings_only_store)
  ∧ (Heap.is_discount_array example_store 2
       [Discount.mk "A" "1"; Discount.mk "C" "1"]
     ∧ returns_fresh_or_throws
         (Exists (λ r, inherited_key (Discount.discount r))
            [Discount.mk "A" "1"; Discount.mk "C" "1"])
         (Heap.groupData_imperative 2) example_store
     ∧ returns_fresh_or_throws
         (Exists (λ r, inherited_key (Discount.discount r))
            [Discount.mk "A" "1"; Discount.mk "C" "1"])
         (Heap.groupData_declarative 2) example_store)
  ∧ (Heap.is_order_array example_store 5 [Order.mk "ASDF-123456" "A"]
     ∧ returns_fresh (Heap.count_imperative 5) example_store
     ∧ returns_fresh (Heap.count_declarative 5) example_store).
Proof.
  assert (Heap.is_string_array strings_only_store 1 ["x"; "y"]) as Hstrings
    by reflexivity.
  assert (Heap.is_discount_array example_store 2
            [Discount.mk "A" "1"; Discount.mk "C" "1"]) as Hdiscounts.
  { eexists. split; [reflexivity|].
    repeat constructor; eexists _, _;
      (split; [reflexivity|split; [reflexivity|repeat constructor]]). }
  assert (Heap.is_order_array example_store 5 [Order.mk "ASDF-123456" "A"])
    as Horders.
  { eexists. split; [reflexivity|].
    repeat constructor; eexists _, _;
      (split; [reflexivity|split; [reflexivity|repeat constructor]]). }
  split; [|split].
  - split; [exact Hstrings|].
    exact (proj1 (use_cases_leave_input_unchanged toUpperCase_ascii
                    strings_only_store) 1%positive _ Hstrings).
  - split; [exact Hdiscounts|].
    exact (proj1 (proj2 (use_cases_leave_input_unchanged toUpperCase_ascii
                           example_store)) 2%positive _ Hdiscounts).
  - split; [exact Horders|].
    exact (proj2 (proj2 (use_cases_leave_input_unchanged toUpperCase_ascii
                           example_store)) 5%positive _ Horders).
Defined.

(** C9.  Left-folding [[1, 2, 3, 4]] with [+] and no initial value takes
    the first element as the first [previousValue], combines from the
    second element on, and yields 10. *)
Theorem reduce_example_result :
  reduce_example
  = reduce (λ previousValue currentValue,
              mret (plus previousValue currentValue))
      (PNum 1) [PNum 2; PNum 3; PNum 4]
  ∧ reduce_example = Return (PNum 10).
Proof. split; reflexivity. Qed.

(** C10.  Left-folding [["1", "2", "3", "4"]] with [+], seeded with the
    empty string, yields the string "1234" (concatenation), not the number
    10 of the comment in the source. *)
Theorem reduce_initialValue_example_result :
  reduce_initialValue_example = Return (PStr "1234")
  ∧ reduce_initialValue_example ≠ Return (PNum 10).
Proof. split; [reflexivity|discriminate]. Qed.

(** * Further properties of the use cases *)

(** ** Grouping *)

Lemma total_codes_insert grouped d codes :
  grouped !! d = None →
  total_codes (<[d := codes]> grouped)
  = (length codes + total_codes grouped)%nat.
Proof.
  intros Hd. unfold total_codes.
  apply (map_fold_insert_L
           (λ (_ : string) (codes : list string) acc,
              (length codes + acc)%nat)); [|done].
  intros. lia.
Qed.

Lemma total_codes_step grouped d code :
  total_codes (<[d := default [] (grouped !! d) ++ [code]]> grouped)
  = S (total_codes grouped).
Proof.
  destruct (grouped !! d) as [old|] eqn:E; simpl.
  - rewrite <- (insert_delete_id grouped d old E) at 2.
    rewrite <- insert_delete_eq.
    rewrite !total_codes_insert by apply lookup_delete_eq.
    rewrite length_app. simpl. lia.
  - by rewrite total_codes_insert.
Qed.

Lemma group_define_clean grouped r :
  ¬ inherited_key (Discount.discount r) →
  group_define grouped r
  = Return (<[Discount.discount r :=
                default [] (grouped !! Discount.discount r)
                ++ [Discount.code r]]> grouped).
Proof. intros Hk. unfold group_define. by apply group_step. Qed.

Lemma group_reduce_total discounts :
  Forall (λ r, ¬ inherited_key (Discount.discount r)) discounts →
  ∀ grouped, ∃ grouped',
    reduce group_define grouped discounts = Return grouped' ∧
    total_codes grouped' = (total_codes grouped + length discounts)%nat.
Proof.
  induction 1 as [|r rest Hk _ IH]; intros grouped.
  - exists grouped. split; [done|]. simpl. lia.
  - cbn [reduce]. rewrite (group_define_clean _ _ Hk). simpl.
    destruct (IH (<[Discount.discount r :=
                      default [] (grouped !! Discount.discount r)
                      ++ [Discount.code r]]> grouped))
      as (grouped' & -> & Htotal).
    exists grouped'. split; [done|].
    rewrite Htotal, total_codes_step. simpl. lia.
Qed.

(** X1.  On an input none of whose discounts names a property of
    [Object.prototype], both forms of [groupData] return the same mapping;
    its keys are the discounts that occur, and the group of [d] is the list
    of the codes of the records with discount [d], in input order. *)
Theorem groupData_groups_by_discount (discounts : list Discount.t) :
  Forall (λ r, ¬ inherited_key (Discount.discount r)) discounts →
  ∃ grouped,
    groupData_imperative discounts = Return grouped ∧
    groupData_declarative discounts = Return grouped ∧
    ∀ d, grouped !! d =
         match codes_with_discount d discounts with
         | [] => None
         | codes => Some codes
         end.
Proof.
  intros Hclean.
  destruct (groupData_declarative_groups _ Hclean) as (grouped & E & Hlook).
  exists grouped. by rewrite groupData_equiv.
Qed.

Lemma groupData_groups_by_discount_witness :
  Forall (λ r, ¬ inherited_key (Discount.discount r)) grouping_example_input
  ∧ ∃ grouped,
      groupData_imperative grouping_example_input = Return grouped ∧
      groupData_declarative grouping_example_input = Return grouped ∧
      ∀ d, grouped !! d =
           match codes_with_discount d grouping_example_input with
           | [] => None
           | codes => Some codes
           end.
Proof.
  assert (Forall (λ r, ¬ inherited_key (Discount.discount r))
            grouping_example_input) as Hclean.
  { repeat constructor; by intros [? [=]]. }
  split; [exact Hclean|].
  exact (groupData_groups_by_discount _ Hclean).
Defined.

(** X2.  Either form of [groupData] throws a TypeError exactly when some
    discount of the input names a property of [Object.prototype]. *)
Theorem groupData_throws_iff (discounts : list Discount.t) :
  (groupData_declarative discounts = Throw TypeError
   ↔ Exists (λ r, inherited_key (Discount.discount r)) discounts)
  ∧ (groupData_imperative discounts = Throw TypeError
     ↔ Exists (λ r, inherited_key (Discount.discount r)) discounts).
Proof.
  rewrite groupData_equiv.
  assert (groupData_declarative discounts = Throw TypeError
          ↔ Exists (λ r, inherited_key (Discount.discount r)) discounts);
    [|done].
  split.
  - apply groupData_declarative_throw_inv.
  - apply groupData_declarative_throws.
Qed.

(** X3.  The two forms of [groupData] agree on every input: they return
    the same mapping, or both throw. *)
Theorem groupData_forms_agree (discounts : list Discount.t) :
  groupData_imperative discounts = groupData_declarative discounts.
Proof. apply groupData_equiv. Qed.

(** X4.  On an input none of whose discounts names a property of
    [Object.prototype], the groups returned by [groupData] hold as many
    codes as the input has records: no occurrence is dropped or added. *)
Theorem groupData_keeps_every_code (discounts : list Discount.t) :
  Forall (λ r, ¬ inherited_key (Discount.discount r)) discounts →
  ∃ grouped,
    groupData_imperative discounts = Return grouped ∧
    groupData_declarative discounts = Return grouped ∧
    total_codes grouped = length discounts.
Proof.
  intros Hclean.
  destruct (group_reduce_total _ Hclean ∅) as (grouped & E & Htotal).
  exists grouped. rewrite groupData_equiv, groupData_declarative_fold.
  split; [done|]. split; [done|]. by rewrite Htotal.
Qed.

Lemma groupData_keeps_every_code_witness :
  Forall (λ r, ¬ inherited_key (Discount.discount r)) grouping_example_input
  ∧ ∃ grouped,
      groupData_imperative grouping_example_input = Return grouped ∧
      groupData_declarative grouping_example_input = Return grouped ∧
      total_codes grouped = length grouping_example_input.
Proof.
  assert (Forall (λ r, ¬ inherited_key (Discount.discount r))
            grouping_example_input) as Hclean.
  { repeat constructor; by intros [? [=]]. }
  split; [exact Hclean|].
  exact (groupData_keeps_every_code _ Hclean).
Defined.

(** ** Counting *)

Lemma occurrences_snoc k orders o :
  occurrences k (orders ++ [o])
  = if decide (Order.code o = k) then S (occurrences k orders)
    else occurrences k orders.
Proof.
  unfold occurrences. rewrite List.filter_app, length_app. simpl.
  case_bool_decide; case_decide; try done; simpl; lia.
Qed.

(** After any records free of inherited keys, the entry of [k] is the
    number of the records with code [k]. *)
Lemma count_define_occurrences orders :
  Forall (λ o, ¬ inherited_key (Order.code o)) orders →
  ∀ k, foldl count_define ∅ orders !! k
       = match occurrences k orders with
         | O => None
         | n => Some (PNum (Z.of_nat n))
         end.
Proof.
  induction orders as [|o orders IH] using rev_ind; intros Hclean k.
  { apply lookup_empty. }
  apply Forall_app in Hclean as [Hclean Ho].
  apply Forall_cons in Ho as [Ho _].
  rewrite foldl_snoc, occurrences_snoc. unfold count_define at 1.
  rewrite (count_step _ _ Ho), (IH Hclean (Order.code o)).
  case_decide as Hk.
  - subst k. rewrite lookup_insert_eq.
    destruct (occurrences (Order.code o) orders) as [|n]; [done|].
    simpl. do 2 f_equal. lia.
  - rewrite lookup_insert_ne by done. by apply IH.
Qed.

Lemma inherited_key_not_proto orders :
  Forall (λ o, ¬ inherited_key (Order.code o)) orders →
  Forall (λ o, Order.code o ≠ "__proto__") orders.
Proof.
  intros H. eapply Forall_impl; [exact H|].
  intros o Ho Heq. apply Ho. rewrite Heq. apply proto_inherited.
Qed.

(** X5.  On an input none of whose codes names a property of
    [Object.prototype], both forms of [count] return the same mapping; its
    keys are the codes that occur, and the entry of [k] is the number of
    the records with code [k]. *)
Theorem count_counts_occurrences (orders : list Order.t) :
  Forall (λ o, ¬ inherited_key (Order.code o)) orders →
  ∃ counts,
    count_imperative orders = Return counts ∧
    count_declarative orders = Return counts ∧
    ∀ k, counts !! k = match occurrences k orders with
                       | O => None
                       | n => Some (PNum (Z.of_nat n))
                       end.
Proof.
  intros Hclean. exists (foldl count_define ∅ orders).
  rewrite (count_equiv _ (inherited_key_not_proto _ Hclean)).
  rewrite count_declarative_fold. split; [done|]. split; [done|].
  by apply count_define_occurrences.
Qed.

Lemma count_counts_occurrences_witness :
  Forall (λ o, ¬ inherited_key (Order.code o)) counting_example_input
  ∧ ∃ counts,
      count_imperative counting_example_input = Return counts ∧
      count_declarative counting_example_input = Return counts ∧
      ∀ k, counts !! k = match occurrences k counting_example_input with
                         | O => None
                         | n => Some (PNum (Z.of_nat n))
                         end.
Proof.
  assert (Forall (λ o, ¬ inherited_key (Order.code o)) counting_example_input)
    as Hclean.
  { repeat constructor; by intros [? [=]]. }
  split; [exact Hclean|].
  exact (count_counts_occurrences _ Hclean).
Defined.

(** X6.  On an input none of whose codes names a property of
    [Object.prototype], the counts returned by either form of [count] add
    up to the length of the input. *)
Theorem count_sum_is_length (orders : list Order.t) :
  Forall (λ o, ¬ inherited_key (Order.code o)) orders →
  ∃ counts,
    count_imperative orders = Return counts ∧
    count_declarative orders = Return counts ∧
    sum_of_counts counts = Some (Z.of_nat (length orders)).
Proof.
  intros Hclean.
  destruct (count_declarative_sum _ Hclean) as (counts & E & Hsum).
  exists counts.
  by rewrite (count_equiv _ (inherited_key_not_proto _ Hclean)).
Qed.

Lemma count_sum_is_length_witness :
  Forall (λ o, ¬ inherited_key (Order.code o)) counting_example_input
  ∧ ∃ counts,
      count_imperative counting_example_input = Return counts ∧
      count_declarative counting_example_input = Return counts ∧
      sum_of_counts counts = Some (Z.of_nat (length counting_example_input)).
Proof.
  assert (Forall (λ o, ¬ inherited_key (Order.code o)) counting_example_input)
    as Hclean.
  { repeat constructor; by intros [? [=]]. }
  split; [exact Hclean|].
  exact (count_sum_is_length _ Hclean).
Defined.

Lemma Get_delete_ne {V} (o : gmap string V) k k' :
  k ≠ k' → Get (delete k o) k' = Get o k'.
Proof. intros Hne. unfold Get. by rewrite lookup_delete_ne. Qed.

Lemma count_assign_drops_proto orders :
  foldl count_assign ∅ orders
  = delete "__proto__" (foldl count_define ∅ orders).
Proof.
  induction orders as [|o orders IH] using rev_ind.
  { simpl. by rewrite delete_empty. }
  rewrite !foldl_snoc, IH. generalize (foldl count_define ∅ orders).
  intros counts. unfold count_assign, count_define, Set_.
  destruct (decide (Order.code o = "__proto__")) as [Heq|Hne].
  - by rewrite Heq, lookup_delete_eq, delete_insert_eq.
  - rewrite (Get_delete_ne _ _ _ (not_eq_sym Hne)).
    rewrite (delete_insert_ne _ _ _ _ (not_eq_sym Hne)).
    by destruct (delete "__proto__" counts !! Order.code o).
Qed.

(** X7.  On every input, what [count.imperative] returns is what
    [count.declarative] returns with the key [__proto__] removed: the
    assignment of the imperative form never creates that key, and the two
    forms treat every other key alike. *)
Theorem count_imperative_drops_proto (orders : list Order.t) :
  ∃ counts,
    count_declarative orders = Return counts ∧
    count_imperative orders = Return (delete "__proto__" counts).
Proof.
  exists (foldl count_define ∅ orders).
  by rewrite count_declarative_fold, count_imperative_fold,
    count_assign_drops_proto.
Qed.

Lemma plus_string_l s p : ∃ s', plus (PStr s) p = PStr s'.
Proof. destruct p; by eexists. Qed.

Lemma ToPrimitive_string b : ∃ s, ToPrimitive b = PStr s.
Proof. destruct b; by eexists. Qed.

Lemma count_define_inherited_strings orders k v :
  inherited_key k →
  foldl count_define ∅ orders !! k = Some v →
  ∃ s, v = PStr s.
Proof.
  intros Hk. revert v.
  induction orders as [|o orders IH] using rev_ind; intros v.
  { simpl. by rewrite lookup_empty. }
  rewrite foldl_snoc. unfold count_define at 1.
  destruct (decide (Order.code o = k)) as [Heq|Hne].
  - rewrite Heq, lookup_insert_eq. intros [= <-]. unfold Get.
    destruct (foldl count_define ∅ orders !! k) as [old|] eqn:E.
    + destruct (IH old eq_refl) as [s ->]. simpl.
      destruct (plus_string_l s (PNum 1)) as [s' Hs']. by exists s'.
    + destruct Hk as [b ->]. simpl.
      destruct (ToPrimitive_string b) as [s ->].
      destruct (plus_string_l s (PNum 1)) as [s' Hs']. by exists s'.
  - rewrite lookup_insert_ne by done. apply IH.
Qed.

(** X8.  Whatever the input, an entry that either form of [count] returns
    under a key that names a property of [Object.prototype] is a string,
    never a number. *)
Theorem count_inherited_entries_are_strings (orders : list Order.t)
    (counts : gmap string prim) (k : string) (v : prim) :
  count_declarative orders = Return counts
  ∨ count_imperative orders = Return counts →
  inherited_key k →
  counts !! k = Some v →
  ∃ s, v = PStr s.
Proof.
  rewrite count_declarative_fold, count_imperative_fold,
    count_assign_drops_proto.
  intros [[= <-]|[= <-]] Hk Hv.
  - by eapply count_define_inherited_strings.
  - apply lookup_delete_Some in Hv as [_ Hv].
    by eapply count_define_inherited_strings.
Qed.

Lemma count_inherited_entries_are_strings_witness :
  ∃ s, PStr "function Object() { [native code] }1" = PStr s.
Proof.
  apply (count_inherited_entries_are_strings
           [Order.mk "ASDF-123456" "constructor"]
           {[ "constructor" := PStr "function Object() { [native code] }1" ]}
           "constructor").
  - left. reflexivity.
  - by eexists.
  - reflexivity.
Defined.

(** ** The transforms *)

(** X9.  The two forms of [transformData] return the same array on every
    input. *)
Theorem transformData_forms_agree (toUpperCase : string → string)
    (array : list string) :
  transformData_imperative toUpperCase array
  = transformData_declarative toUpperCase array.
Proof. apply transformData_equiv. Qed.

(** X10.  The two forms of [transformAndFilterData] return the same array
    on every input. *)
Theorem transformAndFilterData_forms_agree (toUpperCase : string → string)
    (array : list string) :
  transformAndFilterData_imperative toUpperCase array
  = transformAndFilterData_declarative toUpperCase array.
Proof. apply transformAndFilterData_equiv. Qed.

(** X11.  The loops of [transformData.imperative] and of
    [transformAndFilterData.imperative] distribute over concatenation: the
    result on [a ++ b] is the result on [a] followed by the result on
    [b]. *)
Theorem imperative_loops_distribute (toUpperCase : string → string)
    (a b : list string) :
  transformData_imperative toUpperCase (a ++ b)
  = (x ← transformData_imperative toUpperCase a;
     y ← transformData_imperative toUpperCase b;
     mret (x ++ y))
  ∧ transformAndFilterData_imperative toUpperCase (a ++ b)
    = (x ← transformAndFilterData_imperative toUpperCase a;
       y ← transformAndFilterData_imperative toUpperCase b;
       mret (x ++ y)).
Proof.
  split.
  - rewrite !transformData_imperative_eq. simpl. by rewrite List.map_app.
  - rewrite !transformAndFilterData_equiv.
    unfold transformAndFilterData_declarative. simpl.
    by rewrite List.filter_app, List.map_app.
Qed.

(** ** The reducers of the introduction *)

Lemma reduce_plus_numbers acc numbers :
  reduce (λ previousValue currentValue,
            mret (plus previousValue currentValue))
    (PNum acc) (PNum <$> numbers)
  = Return (PNum (acc + sum_of numbers)).
Proof.
  revert acc. induction numbers as [|z rest IH]; intros acc; simpl.
  - do 2 f_equal. unfold sum_of. simpl. lia.
  - rewrite IH. do 2 f_equal. unfold sum_of. simpl. lia.
Qed.

(** X12.  The reducer of index.ts 48-50, applied without initial value to
    any non-empty array of non-negative integers whose sum is at most 2^53
    (where the numbers of the script are exact), returns their sum; applied
    to the empty array it throws a TypeError. *)
Theorem reduce_sums (first : Z) (rest : list Z) :
  Forall (λ z, 0 ≤ z) (first :: rest) →
  sum_of (first :: rest) ≤ 2 ^ 53 →
  reduce_no_initialValue
    (λ previousValue currentValue, mret (plus previousValue currentValue))
    (PNum <$> first :: rest)
  = Return (PNum (sum_of (first :: rest)))
  ∧ reduce_no_initialValue
      (λ previousValue currentValue, mret (plus previousValue currentValue))
      ([] : list prim)
    = Throw TypeError.
Proof.
  intros _ _. split; [|done]. apply reduce_plus_numbers.
Qed.

Lemma reduce_sums_witness :
  Forall (λ z, 0 ≤ z) [1; 2; 3; 4]
  ∧ sum_of [1; 2; 3; 4] ≤ 2 ^ 53
  ∧ reduce_no_initialValue
      (λ previousValue currentValue, mret (plus previousValue currentValue))
      (PNum <$> [1; 2; 3; 4])
    = Return (PNum (sum_of [1; 2; 3; 4])).
Proof.
  assert (Forall (λ z, 0 ≤ z) [1; 2; 3; 4]) as Hpos
    by (repeat constructor; lia).
  assert (sum_of [1; 2; 3; 4] ≤ 2 ^ 53) as Hsum by (vm_compute; discriminate).
  split; [exact Hpos|]. split; [exact Hsum|].
  exact (proj1 (reduce_sums 1 [2; 3; 4] Hpos Hsum)).
Defined.

Lemma append_assoc (s1 s2 s3 : string) :
  (s1 +:+ s2) +:+ s3 = s1 +:+ (s2 +:+ s3).
Proof.
  induction s1 as [|c s1 IH]; [done|].
  change (String c ((s1 +:+ s2) +:+ s3) = String c (s1 +:+ (s2 +:+ s3))).
  by rewrite IH.
Qed.

Lemma append_empty_r (s : string) : s +:+ "" = s.
Proof.
  induction s as [|c s IH]; [done|].
  change (String c (s +:+ "") = String c s). by rewrite IH.
Qed.

Lemma reduce_plus_strings s0 strings :
  reduce (λ previousValue currentValue,
            mret (plus previousValue currentValue))
    (PStr s0) (PStr <$> strings)
  = Return (PStr (s0 +:+ concatenation strings)).
Proof.
  revert s0. induction strings as [|s rest IH]; intros s0; simpl.
  - do 2 f_equal. unfold concatenation. simpl. by rewrite append_empty_r.
  - rewrite IH. do 2 f_equal. unfold concatenation. simpl.
    apply append_assoc.
Qed.

Lemma reduce_plus_from_string s0 (array : list prim) :
  ∃ s, reduce (λ previousValue currentValue,
                 mret (plus previousValue currentValue))
         (PStr s0) array
       = Return (PStr s).
Proof.
  revert s0. induction array as [|p rest IH]; intros s0; cbn [reduce].
  - by exists s0.
  - destruct (plus_string_l s0 p) as [s' ->]. apply IH.
Qed.

(** X13.  The reducer of index.ts 74-77, seeded with the empty string,
    returns the concatenation of any array of strings, and returns a
    string, never a number, on any array of numbers and strings. *)
Theorem reduce_from_empty_string (strings : list string) (array : list prim) :
  reduce (λ previousValue currentValue,
            mret (plus previousValue currentValue))
    (PStr "") (PStr <$> strings)
  = Return (PStr (concatenation strings))
  ∧ ∃ s, reduce (λ previousValue currentValue,
                   mret (plus previousValue currentValue))
           (PStr "") array
         = Return (PStr s).
Proof.
  split.
  - apply (reduce_plus_strings "").
  - apply reduce_plus_from_string.
Qed.

(** ** The two layers agree *)

Lemma wp_elim {A} (m : Heap.M A) (h : gmap positive Heap.obj) Q T :
  Heap.wp m h Q T →
  ∃ c h', m h = Some (c, h') ∧
          match c with
          | Return a => Q a h'
          | Throw e => T e h'
          end.
Proof.
  unfold Heap.wp. destruct (m h) as [[c h']|]; [|done].
  intros H. by exists c, h'.
Qed.

Lemma wp_computes_array (m : Heap.M positive) h a strings out :
  Heap.is_string_array h a strings →
  Heap.wp m h (λ r h', (r ∉ dom h) ∧ Heap.unchanged h h' ∧
                       Heap.is_string_array h' r out) (λ _ _, False) →
  computes_array m h a strings (Return out).
Proof.
  intros Ha Hwp. apply wp_elim in Hwp as ([r|e] & h' & E & H); [|done].
  destruct H as (Hr & Hu & Hout). exists r, h', out.
  split_and!; [done..|]. by eapply unchanged_lookup.
Qed.

(** X14.  Called on a stored array of strings, each form of
    [transformData] and of [transformAndFilterData] returns a new array
    that holds what the by-value form returns, and the input array still
    holds its strings. *)
Theorem store_transforms_compute (toUpperCase : string → string)
    (h : gmap positive Heap.obj) (a : positive) (strings : list string) :
  Heap.is_string_array h a strings →
  computes_array (Heap.transformData_imperative toUpperCase a) h a strings
    (transformData_imperative toUpperCase strings)
  ∧ computes_array (Heap.transformData_declarative toUpperCase a) h a strings
      (transformData_declarative toUpperCase strings)
  ∧ computes_array (Heap.transformAndFilterData_imperative toUpperCase a) h
      a strings (transformAndFilterData_imperative toUpperCase strings)
  ∧ computes_array (Heap.transformAndFilterData_declarative toUpperCase a) h
      a strings (transformAndFilterData_declarative toUpperCase strings).
Proof.
  intros Ha. rewrite transformData_equiv, transformAndFilterData_equiv.
  split_and!; apply wp_computes_array; try done.
  - by apply heap_transformData_imperative.
  - by apply heap_transformData_declarative.
  - by apply heap_transformAndFilterData_imperative.
  - by apply heap_transformAndFilterData_declarative.
Qed.

Lemma store_transforms_compute_witness :
  Heap.is_string_array example_store 1 ["x"; "y"; "xz"]
  ∧ computes_array (Heap.transformData_imperative toUpperCase_ascii 1)
      example_store 1 ["x"; "y"; "xz"]
      (transformData_imperative toUpperCase_ascii ["x"; "y"; "xz"])
  ∧ computes_array
      (Heap.transformAndFilterData_declarative toUpperCase_ascii 1)
      example_store 1 ["x"; "y"; "xz"]
      (transformAndFilterData_declarative toUpperCase_ascii ["x"; "y"; "xz"]).
Proof.
  assert (Heap.is_string_array example_store 1 ["x"; "y"; "xz"]) as Ha
    by reflexivity.
  destruct (store_transforms_compute toUpperCase_ascii example_store 1 _ Ha)
    as (H1 & _ & _ & H4).
  split; [exact Ha|]. split; [exact H1|exact H4].
Defined.

(** X15.  Called on a stored array of [{code, discount}] records, each
    form of [groupData] leaves the store's objects as they were and either
    returns a new object that holds the grouping the by-value form
    returns, each group in an array created by the call, or throws as the
    by-value form does. *)
Theorem store_groupData_computes (h : gmap positive Heap.obj) (a : positive)
    (discounts : list Discount.t) :
  Heap.is_discount_array h a discounts →
  computes_grouping (Heap.groupData_imperative a) h
    (groupData_imperative discounts)
  ∧ computes_grouping (Heap.groupData_declarative a) h
      (groupData_declarative discounts).
Proof.
  intros Ha. rewrite groupData_equiv. split.
  - destruct (wp_elim _ _ _ _ (heap_groupData_imperative a discounts h Ha))
      as ([r|e] & h' & E & H).
    + destruct H as (Hu & grouped & -> & Hg). by exists (Return r), h'.
    + destruct H as (Hu & ->). by exists (Throw e), h'.
  - destruct (wp_elim _ _ _ _ (heap_groupData_declarative a discounts h Ha))
      as ([r|e] & h' & E & H).
    + destruct H as (Hu & grouped & -> & Hg). by exists (Return r), h'.
    + destruct H as (Hu & ->). by exists (Throw e), h'.
Qed.

Lemma example_store_discounts :
  Heap.is_discount_array example_store 2
    [Discount.mk "A" "1"; Discount.mk "C" "1"].
Proof.
  eexists. split; [reflexivity|].
  repeat constructor; eexists _, _;
    (split; [reflexivity|split; [reflexivity|repeat constructor]]).
Defined.

Lemma example_store_orders :
  Heap.is_order_array example_store 5 [Order.mk "ASDF-123456" "A"].
Proof.
  eexists. split; [reflexivity|].
  repeat constructor; eexists _, _;
    (split; [reflexivity|split; [reflexivity|repeat constructor]]).
Defined.

Lemma store_groupData_computes_witness :
  Heap.is_discount_array example_store 2
    [Discount.mk "A" "1"; Discount.mk "C" "1"]
  ∧ computes_grouping (Heap.groupData_imperative 2) example_store
      (groupData_imperative [Discount.mk "A" "1"; Discount.mk "C" "1"])
  ∧ computes_grouping (Heap.groupData_declarative 2) example_store
      (groupData_declarative [Discount.mk "A" "1"; Discount.mk "C" "1"]).
Proof.
  split; [exact example_store_discounts|].
  exact (store_groupData_computes example_store 2 _ example_store_discounts).
Defined.

(** X16.  Called on a stored array of [{order, code}] records, each form
    of [count] leaves the store's objects as they were and returns a new
    object that holds the counts the by-value form returns. *)
Theorem store_count_computes (h : gmap positive Heap.obj) (a : positive)
    (orders : list Order.t) :
  Heap.is_order_array h a orders →
  computes_counting (Heap.count_imperative a) h (count_imperative orders)
  ∧ computes_counting (Heap.count_declarative a) h (count_declarative orders).
Proof.
  intros Ha. rewrite count_imperative_fold, count_declarative_fold. split.
  - destruct (wp_elim _ _ _ _ (heap_count_imperative a orders h Ha))
      as ([r|e] & h' & E & H); [|done].
    destruct H as [Hu Hc]. by exists r, h', (foldl count_assign ∅ orders).
  - destruct (wp_elim _ _ _ _ (heap_count_declarative a orders h Ha))
      as ([r|e] & h' & E & H); [|done].
    destruct H as [Hu Hc]. by exists r, h', (foldl count_define ∅ orders).
Qed.

Lemma store_count_computes_witness :
  Heap.is_order_array example_store 5 [Order.mk "ASDF-123456" "A"]
  ∧ computes_counting (Heap.count_imperative 5) example_store
      (count_imperative [Order.mk "ASDF-123456" "A"])
  ∧ computes_counting (Heap.count_declarative 5) example_store
      (count_declarative [Order.mk "ASDF-123456" "A"]).
Proof.
  split; [exact example_store_orders|].
  exact (store_count_computes example_store 5 _ example_store_orders).
Defined.
